(** * SCALE decoder stream: a shallow embedding of [scale::ScaleDecoderStream]

    The decoder is a cursor over a borrowed byte span.  Every [operator>>]
    defined in the header is embedded as a function from the destination (the
    reference the C++ operator writes through) and the stream to a
    [Reply]: the destination afterwards, the error raised (if any) and the
    stream afterwards.  A C++ exception leaves both the stream object and
    whatever the operator had already written behind, so a failed reply
    still carries both. *)

From Stdlib Require Import NArith.
From Stdlib.Strings Require Import Byte.
From stdpp Require Import base numbers option list vector gmap.

Open Scope N_scope.

(** ** Errors *)

(** Modelled from the spec: the error enumeration of [scale/scale_error.hpp]
    is not among the sources; these are the error kinds of the
    specification's closed set. *)
Inductive DecodeError : Type :=
| NOT_ENOUGH_DATA
| UNEXPECTED_VALUE
| WRONG_TYPE_INDEX
| TOO_MANY_ITEMS
| VALUE_OUT_OF_RANGE
| EXTRA_DATA
| UNSUPPORTED_SHAPE.

#[global] Instance DecodeError_eq_dec : EqDecision DecodeError.
Proof. solve_decision. Defined.

(** Bytes can be keys of a map. *)
#[global] Instance byte_eq_dec : EqDecision byte := Byte.byte_eq_dec.

#[global] Instance byte_countable : Countable byte.
Proof.
  refine (inj_countable' Byte.to_N (λ n, default x00 (Byte.of_N n)) _).
  intros b. by rewrite Byte.of_to_N.
Defined.

(** ** The stream *)

(** [span_] and [current_index_] of the class.  [current_iterator_] is kept
    in lockstep with [current_index_] (it is [span_.begin() + current_index_]),
    so the offset stands for both. *)
Record ScaleDecoderStream : Type := mkStream {
  span_ : list byte;
  current_index_ : N
}.

Definition span (s : ScaleDecoderStream) : list byte := span_ s.
Definition currentIndex (s : ScaleDecoderStream) : N := current_index_ s.

(** Modelled from the spec: the constructor is declared in the header and
    defined in the missing [scale_decoder_stream.cpp]; the cursor starts at
    the beginning of the borrowed span. *)
Definition ScaleDecoderStream_of (span : list byte) : ScaleDecoderStream :=
  {| span_ := span; current_index_ := 0 |}.

(** Bytes between the cursor and the end of the span. *)
Definition remaining (s : ScaleDecoderStream) : N :=
  N.of_nat (length (span_ s)) - current_index_ s.

Definition advance (n : N) (s : ScaleDecoderStream) : ScaleDecoderStream :=
  {| span_ := span_ s; current_index_ := current_index_ s + n |}.

(** The result of a member function that returns a value or raises. *)
Inductive Outcome (A : Type) : Type :=
| Done (a : A)
| Raise (e : DecodeError).
Arguments Done {A} a.
Arguments Raise {A} e.

(** A member function of the stream: the stream persists through a raise. *)
Definition Fallible (A : Type) : Type :=
  ScaleDecoderStream → Outcome A * ScaleDecoderStream.

Definition ret {A} (a : A) : Fallible A := λ s, (Done a, s).
Definition raise {A} (e : DecodeError) : Fallible A := λ s, (Raise e, s).
Definition bind {A B} (m : Fallible A) (k : A → Fallible B) : Fallible B :=
  λ s, match m s with
       | (Done a, s') => k a s'
       | (Raise e, s') => (Raise e, s')
       end.

Notation "'let!' x ':=' m 'in' k" := (bind m (λ x, k))
  (at level 10, x name, m at level 100, k at level 200, only parsing).

(** Modelled from the spec: [hasMore] is declared in the header and defined
    in the missing [scale_decoder_stream.cpp]; it reports whether at least
    [n] bytes remain and does not advance. *)
Definition hasMore (n : N) (s : ScaleDecoderStream) : bool :=
  current_index_ s + n <=? N.of_nat (length (span_ s)).

(** Modelled from the spec: [nextByte] (definition missing) returns the byte
    at the cursor and advances by one; it fails with [NOT_ENOUGH_DATA] when
    at the end. *)
Definition nextByte : Fallible byte := λ s,
  if hasMore 1 s then
    match span_ s !! N.to_nat (current_index_ s) with
    | Some b => (Done b, advance 1 s)
    | None => (Raise NOT_ENOUGH_DATA, s)
    end
  else (Raise NOT_ENOUGH_DATA, s).

(** Modelled from the spec: [decodeBool] (definition missing); bytes other
    than 0x00 and 0x01 fail with [UNEXPECTED_VALUE]. *)
Definition decodeBool : Fallible bool :=
  let! b := nextByte in
  match Byte.to_N b with
  | 0 => ret false
  | 1 => ret true
  | _ => raise UNEXPECTED_VALUE
  end.

(** Modelled from the spec: [decodeOptionalBool] (definition missing); one
    byte, 0 = absent, 1 = true, 2 = false, a byte above 2 fails with
    [UNEXPECTED_VALUE]. *)
Definition decodeOptionalBool : Fallible (option bool) :=
  let! b := nextByte in
  match Byte.to_N b with
  | 0 => ret None
  | 1 => ret (Some true)
  | 2 => ret (Some false)
  | _ => raise UNEXPECTED_VALUE
  end.

(** Little-endian value of a run of bytes. *)
Definition le_value (bs : list byte) : N :=
  foldr (λ b acc, Byte.to_N b + 256 * acc) 0 bs.

(** The next [k] bytes, when that many remain. *)
Definition nextBytes (k : N) : Fallible (list byte) := λ s,
  if hasMore k s then
    (Done (take (N.to_nat k) (drop (N.to_nat (current_index_ s)) (span_ s))),
     advance k s)
  else (Raise NOT_ENOUGH_DATA, s).

(** [CompactInteger] is an arbitrary-precision unsigned integer. *)
Definition CompactInteger : Type := N.

(** Modelled from the spec: the compact-integer decoder lives in the missing
    [scale_decoder_stream.cpp].  The low two bits of the first byte select
    the mode: one byte, two bytes, four bytes, or [M = (first >> 2) + 4]
    value bytes; a header asking for more bytes than remain fails with
    [NOT_ENOUGH_DATA]. *)
Definition decodeCompactInteger : Fallible CompactInteger :=
  let! first := nextByte in
  let b := Byte.to_N first in
  match N.land b 3 with
  | 0 => ret (N.shiftr b 2)
  | 1 => let! rest := nextBytes 1 in ret (N.shiftr (le_value (first :: rest)) 2)
  | 2 => let! rest := nextBytes 3 in ret (N.shiftr (le_value (first :: rest)) 2)
  | _ => let! value := nextBytes (N.shiftr b 2 + 4) in ret (le_value value)
  end.

(** ** Replies of [operator>>] *)

(** What a call can leave by: a [DecodeError] raised by the stream, or
    [std::length_error], which [resize] throws for a size above
    [max_size()] and which no handler of the stream catches. *)
Inductive Exception : Type :=
| decode_error (e : DecodeError)
| std_length_error.

(** A [DecodeError] is read as the exception that carries it, also under
    [Some]. *)
Coercion decode_error : DecodeError >-> Exception.
Arguments Some {A} & a.

Record Reply (T : Type) : Type := reply {
  dest : T;                       (* the destination after the call *)
  status : option Exception;      (* [None]: returned normally *)
  stream : ScaleDecoderStream     (* the stream after the call *)
}.
Arguments reply {T} dest status stream.
Arguments dest {T} r.
Arguments status {T} r.
Arguments stream {T} r.

(** [v = f();] where [f] may raise: the assignment happens only when [f]
    returns. *)
Definition assign {A T} (f : Fallible A) (set : A → T)
    (v : T) (s : ScaleDecoderStream) : Reply T :=
  match f s with
  | (Done a, s') => reply (set a) None s'
  | (Raise e, s') => reply v (Some e) s'
  end.

(** The shape capability: what the stream needs of a type [T] to decode it.
    [construct] is [T{}], [extract v s] is [s >> v], and [from_bool] answers
    [std::is_same_v<T, bool>]: it is [Some id] for [bool] and [None] for
    every other type. *)
Class Decodable (T : Type) : Type := {
  construct : T;
  extract : T → ScaleDecoderStream → Reply T;
  from_bool : option (bool → T)
}.

(** [operator>>(T &v)] for integral [T]: [bool] goes through [decodeBool],
    a one-byte integer through [nextByte]. *)
#[global] Instance decodable_bool : Decodable bool := {|
  construct := false;
  extract := assign decodeBool id;
  from_bool := Some id
|}.

#[global] Instance decodable_uint8_t : Decodable byte := {|
  construct := x00;
  extract := assign nextByte id;
  from_bool := None
|}.

(** [operator>>(CompactInteger &v)]. *)
#[global] Instance decodable_CompactInteger : Decodable CompactInteger := {|
  construct := 0;
  extract := assign decodeCompactInteger id;
  from_bool := None
|}.

(** ** Optionals, pointers, pairs *)

(** [operator>>(std::optional<T> &v)].  An optional [bool] is one byte and
    goes through [decodeOptionalBool]; any other optional is a [bool]
    discriminant, then the value decoded in place in the emplaced [T{}]. *)
Definition extract_optional `{Decodable T}
    (v : option T) (s : ScaleDecoderStream) : Reply (option T) :=
  match from_bool (T := T) with
  | Some of_bool => assign decodeOptionalBool (fmap of_bool) v s
  | None =>
    let h := extract (T := bool) false s in
    match status h with
    | Some e => reply v (Some e) (stream h)
    | None =>
      if dest h then
        let r := extract (construct (T := T)) (stream h) in
        reply (Some (dest r)) (status r) (stream r)
      else reply None None (stream h)
    end
  end.

#[global] Instance decodable_optional `{Decodable T} : Decodable (option T) := {|
  construct := None;
  extract := extract_optional;
  from_bool := None
|}.

(** Owning pointers: null, or pointing at a value. *)
Inductive shared_ptr (T : Type) : Type :=
| shared_null
| make_shared (pointee : T).
Arguments shared_null {T}.
Arguments make_shared {T} pointee.

Inductive unique_ptr (T : Type) : Type :=
| unique_null
| make_unique (pointee : T).
Arguments unique_null {T}.
Arguments make_unique {T} pointee.

(** [operator>>(std::shared_ptr<T> &v)]: [v = std::make_shared<T>()], then
    the pointee is decoded in place. *)
Definition extract_shared_ptr `{Decodable T}
    (v : shared_ptr T) (s : ScaleDecoderStream) : Reply (shared_ptr T) :=
  let r := extract (construct (T := T)) s in
  reply (make_shared (dest r)) (status r) (stream r).

(** [operator>>(std::unique_ptr<T> &v)]. *)
Definition extract_unique_ptr `{Decodable T}
    (v : unique_ptr T) (s : ScaleDecoderStream) : Reply (unique_ptr T) :=
  let r := extract (construct (T := T)) s in
  reply (make_unique (dest r)) (status r) (stream r).

#[global] Instance decodable_shared_ptr `{Decodable T} : Decodable (shared_ptr T) := {|
  construct := shared_null;
  extract := extract_shared_ptr;
  from_bool := None
|}.

#[global] Instance decodable_unique_ptr `{Decodable T} : Decodable (unique_ptr T) := {|
  construct := unique_null;
  extract := extract_unique_ptr;
  from_bool := None
|}.

(** [operator>>(std::pair<F, S> &p)]: [*this >> p.first >> p.second]. *)
Definition extract_pair {F S : Type} `{Decodable F, Decodable S}
    (p : F * S) (s : ScaleDecoderStream) : Reply (F * S) :=
  let r1 := extract p.1 s in
  match status r1 with
  | Some e => reply (dest r1, p.2) (Some e) (stream r1)
  | None =>
    let r2 := extract p.2 (stream r1) in
    reply (dest r1, dest r2) (status r2) (stream r2)
  end.

#[global] Instance decodable_pair {F S : Type} `{Decodable F, Decodable S}
    : Decodable (F * S) := {|
  construct := (construct, construct);
  extract := extract_pair;
  from_bool := None
|}.

(** ** Sum and product types *)

(** [boost::variant<Ts...>]: a value of one of the listed types.  The
    position of the held type in the list is the number of [holds_later]
    around the [holds_first]. *)
Fixpoint variant (Ts : list Type) : Type :=
  match Ts with
  | [] => Empty_set
  | T :: Ts' => (T + variant Ts')%type
  end.

Definition holds_first {T : Type} {Ts : list Type} (x : T)
    : variant (T :: Ts) := inl x.
Definition holds_later {T : Type} {Ts : list Type} (w : variant Ts)
    : variant (T :: Ts) := inr w.

(** The decoders of the types [Ts...], in declaration order. *)
Fixpoint Decodables (Ts : list Type) : Type :=
  match Ts with
  | [] => unit
  | T :: Ts' => (Decodable T * Decodables Ts')%type
  end.

(** [tryDecodeAsOneOfVariant<I>(v, i)]: at the alternative number [I], with
    [Ts] the alternatives from [I] on; [put] stores a value of these into
    the whole variant. *)
Fixpoint tryDecodeAsOneOfVariant {V : Type} (Ts : list Type) (I : N)
    : Decodables Ts → (variant Ts → V) → V → N → ScaleDecoderStream → Reply V :=
  match Ts with
  | [] => λ _ _ v _ s, reply v None s
  | T :: Ts' => λ alts put v i s,
    if I =? i then
      let val := extract (Decodable := alts.1) (construct (Decodable := alts.1)) s in
      match status val with
      | Some e => reply v (Some e) (stream val)
      | None => reply (put (holds_first (dest val))) None (stream val)
      end
    else
      tryDecodeAsOneOfVariant Ts' (I + 1) alts.2 (λ w, put (holds_later w)) v i s
  end.

(** [operator>>(boost::variant<Ts...> &v)]. *)
Definition extract_variant {Ts : list Type} (alts : Decodables Ts)
    (v : variant Ts) (s : ScaleDecoderStream) : Reply (variant Ts) :=
  let t := extract (T := byte) x00 s in
  match status t with
  | Some e => reply v (Some e) (stream t)
  | None =>
    let type_index := Byte.to_N (dest t) in
    if N.of_nat (length Ts) <=? type_index
    then reply v (Some WRONG_TYPE_INDEX) (stream t)
    else tryDecodeAsOneOfVariant Ts 0 alts id v type_index (stream t)
  end.

(** A default-constructed variant holds a default-constructed first
    alternative. *)
Definition decodable_variant {T : Type} {Ts : list Type}
    (alts : Decodables (T :: Ts)) : Decodable (variant (T :: Ts)) := {|
  construct := holds_first (construct (Decodable := alts.1));
  extract := extract_variant alts;
  from_bool := None
|}.

(** [std::tuple<Ts...>]. *)
Fixpoint tuple (Ts : list Type) : Type :=
  match Ts with
  | [] => unit
  | T :: Ts' => (T * tuple Ts')%type
  end.

(** [decodeElementOfTuple<I>(v)], with [Ts] the element types from [I] on
    and [v] these elements of the tuple: [*this >> std::get<I>(v)], then
    the elements after it. *)
Fixpoint decodeElementOfTuple (Ts : list Type)
    : Decodables Ts → tuple Ts → ScaleDecoderStream → Reply (tuple Ts) :=
  match Ts with
  | [] => λ _ v s, reply v None s
  | T :: Ts' => λ ds v s,
    let r := extract (Decodable := ds.1) v.1 s in
    match status r with
    | Some e => reply (dest r, v.2) (Some e) (stream r)
    | None =>
      let r' := decodeElementOfTuple Ts' ds.2 v.2 (stream r) in
      reply (dest r, dest r') (status r') (stream r')
    end
  end.

(** [operator>>(std::tuple<T...> &v)]. *)
Definition extract_tuple {Ts : list Type} (ds : Decodables Ts)
    (v : tuple Ts) (s : ScaleDecoderStream) : Reply (tuple Ts) :=
  decodeElementOfTuple Ts ds v s.

Fixpoint construct_tuple (Ts : list Type) : Decodables Ts → tuple Ts :=
  match Ts with
  | [] => λ _, tt
  | T :: Ts' => λ ds, (construct (Decodable := ds.1), construct_tuple Ts' ds.2)
  end.

Definition decodable_tuple {Ts : list Type} (ds : Decodables Ts)
    : Decodable (tuple Ts) := {|
  construct := construct_tuple Ts ds;
  extract := extract_tuple ds;
  from_bool := None
|}.

(** ** Loops *)

(** [for (size_t i = 0; i < n; ++i) body]: the state of the loop is what the
    body reads and writes; a raise in the body leaves the loop. *)
Fixpoint repeat_times {L : Type} (n : nat)
    (body : L → ScaleDecoderStream → Reply L)
    (l : L) (s : ScaleDecoderStream) : Reply L :=
  match n with
  | O => reply l None s
  | S k =>
    let r := body l s in
    match status r with
    | Some e => r
    | None => repeat_times k body (dest r) (stream r)
    end
  end.

(** [*this >> container[i]] for every index [i] of [container], in order;
    each element is decoded in place. *)
Fixpoint extract_items `{Decodable T}
    (container : list T) (s : ScaleDecoderStream) : Reply (list T) :=
  match container with
  | [] => reply [] None s
  | el :: rest =>
    let r := extract el s in
    match status r with
    | Some e => reply (dest r :: rest) (Some e) (stream r)
    | None =>
      let r' := extract_items rest (stream r) in
      reply (dest r :: dest r') (status r') (stream r')
    end
  end.

(** The same traversal over [std::array<T, size>], a [vec T size]. *)
Fixpoint extract_elements `{Decodable T} {size : nat}
    (a : vec T size) (s : ScaleDecoderStream) : Reply (vec T size) :=
  match a in vec _ n return Reply (vec T n) with
  | vnil => reply [#] None s
  | vcons el rest =>
    let r := extract el s in
    match status r with
    | Some e => reply (dest r ::: rest) (Some e) (stream r)
    | None =>
      let r' := extract_elements rest (stream r) in
      reply (dest r ::: dest r') (status r') (stream r')
    end
  end.

(** [operator>>(std::array<T, size> &a)]: no length is read; the elements
    are decoded in place in [a]. *)
Definition extract_array `{Decodable T} {size : nat}
    (a : vec T size) (s : ScaleDecoderStream) : Reply (vec T size) :=
  extract_elements a s.

(** The [is_static_collection] branch of [operator>>(C &c)]: the elements are
    decoded into a local [C container], which is moved into [c] at the end. *)
Definition extract_static_collection `{Decodable T} {size : nat}
    (c : vec T size) (s : ScaleDecoderStream) : Reply (vec T size) :=
  let r := extract_elements (vreplicate size (construct (T := T))) s in
  match status r with
  | Some e => reply c (Some e) (stream r)
  | None => reply (dest r) None (stream r)
  end.

(** [container.emplace(pair)] of [std::map] and [std::unordered_map]: the
    pair is inserted only when its key is not bound yet. *)
Definition emplace `{Countable K} {V : Type}
    (pair : K * V) (container : gmap K V) : gmap K V :=
  match container !! pair.1 with
  | Some _ => container
  | None => <[pair.1 := pair.2]> container
  end.

(** ** Length-prefixed containers *)

Section Containers.

(** [CompactInteger::convert_to<size_type>()] belongs to the big-integer
    library and the exceptions of [resize] to the standard library and the
    allocator: they are parameters.  [bad_alloc n] tells whether
    [container.resize(n)] throws [std::bad_alloc] and [length_error n]
    whether it throws [std::length_error] ([n] above [max_size()]); it
    throws at most one of them.  [reserve_bad_alloc n] tells whether
    [lst.reserve(n)] of the list overload throws [std::bad_alloc].  The
    allocations that grow with the elements already read ([push_back],
    [emplace_back], [emplace]) are taken to succeed. *)
Context (convert_to : CompactInteger → N)
        (bad_alloc length_error reserve_bad_alloc : N → bool).

(** [decodeVectorLike(C &v)].  A [std::bad_alloc] of [resize] is caught and
    raised again as [TOO_MANY_ITEMS]; a [std::length_error] passes the
    handler and leaves the call. *)
Definition decodeVectorLike `{Decodable T}
    (v : list T) (s : ScaleDecoderStream) : Reply (list T) :=
  let size := extract (T := CompactInteger) 0 s in
  match status size with
  | Some e => reply v (Some e) (stream size)
  | None =>
    let item_count := convert_to (dest size) in
    if bad_alloc item_count
    then reply v (Some (decode_error TOO_MANY_ITEMS)) (stream size)
    else if length_error item_count
    then reply v (Some std_length_error) (stream size)
    else
      let container := replicate (N.to_nat item_count) (construct (T := T)) in
      let r := extract_items container (stream size) in
      match status r with
      | Some e => reply v (Some e) (stream r)
      | None => reply (dest r) None (stream r)
      end
  end.

(** [operator>>(std::vector<T> &v)], [operator>>(std::deque<T> &v)] and the
    branch of [operator>>(C &c)] for a collection that is not static. *)
Definition extract_vector `{Decodable T} := decodeVectorLike (T := T).
Definition extract_deque `{Decodable T} := decodeVectorLike (T := T).
Definition extract_collection `{Decodable T} := decodeVectorLike (T := T).

(** [operator>>(std::vector<bool> &v)]: the loop keeps the local
    [container] and the local [el]. *)
Definition extract_vector_bool
    (v : list bool) (s : ScaleDecoderStream) : Reply (list bool) :=
  let size := extract (T := CompactInteger) 0 s in
  match status size with
  | Some e => reply v (Some e) (stream size)
  | None =>
    let item_count := convert_to (dest size) in
    let r :=
      repeat_times (N.to_nat item_count)
        (λ '(container, el) s',
           let r := extract (T := bool) el s' in
           match status r with
           | Some e => reply (container, dest r) (Some e) (stream r)
           | None => reply (container ++ [dest r], dest r) None (stream r)
           end)
        ([], false) (stream size) in
    match status r with
    | Some e => reply v (Some e) (stream r)
    | None => reply (dest r).1 None (stream r)
    end
  end.

(** [operator>>(std::list<T> &v)], as it is written.  [std::list] has no
    member [reserve], so this overload is ill-formed for every
    [std::list<T>] and no program can call it; the text is embedded for a
    list type that provides [reserve], whose [std::bad_alloc] is the
    parameter [reserve_bad_alloc]. *)
Definition extract_list `{Decodable T}
    (v : list T) (s : ScaleDecoderStream) : Reply (list T) :=
  let size := extract (T := CompactInteger) 0 s in
  match status size with
  | Some e => reply v (Some e) (stream size)
  | None =>
    let item_count := convert_to (dest size) in
    if reserve_bad_alloc item_count
    then reply v (Some (decode_error TOO_MANY_ITEMS)) (stream size)
    else
      let r :=
        repeat_times (N.to_nat item_count)
          (λ lst s',
             let r := extract (construct (T := T)) s' in
             reply (lst ++ [dest r]) (status r) (stream r))
          [] (stream size) in
      match status r with
      | Some e => reply v (Some e) (stream r)
      | None => reply (dest r) None (stream r)
      end
  end.

(** [operator>>(C &c)] for a map-like [C]: the loop keeps the local
    [container] and the local [pair] (here [pair_]). *)
Definition extract_map `{Countable K} {V : Type} `{Decodable K, Decodable V}
    (c : gmap K V) (s : ScaleDecoderStream) : Reply (gmap K V) :=
  let size := extract (T := CompactInteger) 0 s in
  match status size with
  | Some e => reply c (Some e) (stream size)
  | None =>
    let item_count := convert_to (dest size) in
    let r :=
      repeat_times (N.to_nat item_count)
        (λ '(container, pair_) s',
           let r := extract (T := K * V) pair_ s' in
           match status r with
           | Some e => reply (container, dest r) (Some e) (stream r)
           | None => reply (emplace (dest r) container, dest r) None (stream r)
           end)
        (∅, construct (T := K * V)) (stream size) in
    match status r with
    | Some e => reply c (Some e) (stream r)
    | None => reply (dest r).1 None (stream r)
    end
  end.

(** The capabilities of the containers. *)
Definition decodable_vector `{Decodable T} : Decodable (list T) := {|
  construct := [];
  extract := extract_vector;
  from_bool := None
|}.

Definition decodable_deque `{Decodable T} : Decodable (list T) := {|
  construct := [];
  extract := extract_deque;
  from_bool := None
|}.

Definition decodable_vector_bool : Decodable (list bool) := {|
  construct := [];
  extract := extract_vector_bool;
  from_bool := None
|}.

Definition decodable_list `{Decodable T} : Decodable (list T) := {|
  construct := [];
  extract := extract_list;
  from_bool := None
|}.

Definition decodable_map `{Countable K} {V : Type} `{Decodable K, Decodable V}
    : Decodable (gmap K V) := {|
  construct := ∅;
  extract := extract_map;
  from_bool := None
|}.

End Containers.

Definition decodable_array `{Decodable T} (size : nat) : Decodable (vec T size) := {|
  construct := vreplicate size (construct (T := T));
  extract := extract_array;
  from_bool := None
|}.

Definition decodable_static_collection `{Decodable T} (size : nat)
    : Decodable (vec T size) := {|
  construct := vreplicate size (construct (T := T));
  extract := extract_static_collection;
  from_bool := None
|}.

(** An instance of the parameters: a 64-bit [size_type] (a value that fits
    is kept), a [max_size()] of [2^62] items and an allocator that serves
    up to [2^32] items. *)
Definition convert_to_size_t (n : CompactInteger) : N := n mod 2 ^ 64.
Definition bad_alloc_above_2_32 (n : N) : bool := (2 ^ 32 <? n) && (n <=? 2 ^ 62).
Definition length_error_above_2_62 (n : N) : bool := 2 ^ 62 <? n.

(** ** Properties of streams and decoders *)

(** The cursor lies within the span. *)
Definition in_bounds (s : ScaleDecoderStream) : Prop :=
  current_index_ s ≤ N.of_nat (length (span_ s)).

(** [s'] is [s] read further: the same span, the cursor not before, and
    still within the span if it was. *)
Definition advances (s s' : ScaleDecoderStream) : Prop :=
  span_ s' = span_ s ∧
  current_index_ s ≤ current_index_ s' ∧
  (in_bounds s → in_bounds s').

(** A member function that only reads forward. *)
Definition reads_forward {A : Type} (f : Fallible A) : Prop :=
  ∀ s, advances s (f s).2.

(** An [operator>>] that only reads forward. *)
Definition Forward {T : Type} (d : Decodable T) : Prop :=
  ∀ v s, advances s (stream (extract (Decodable := d) v s)).

(** A decoder whose successful runs take at least [m] bytes. *)
Definition consumes_at_least (m : N) {T : Type} (d : Decodable T) : Prop :=
  ∀ v s, status (extract (Decodable := d) v s) = None →
         current_index_ s + m ≤ current_index_ (stream (extract (Decodable := d) v s)).

(** A decoder that raises only errors of [P]. *)
Definition raises_only (P : Exception → Prop) {T : Type} (d : Decodable T) : Prop :=
  ∀ v s e, status (extract (Decodable := d) v s) = Some e → P e.

(** A shape of fixed wire width [w] that decodes whenever [w] bytes remain,
    as the fixed-width integers do. *)
Definition fixed_width (w : N) {T : Type} (d : Decodable T) : Prop :=
  ∀ v s,
    let r := extract (Decodable := d) v s in
    if hasMore w s
    then status r = None ∧ stream r = advance w s
    else status r = Some NOT_ENOUGH_DATA.

(** An element shape for a container: it reads forward, a successful
    decode takes at least [m] bytes, and its errors are among [P]. *)
Definition element_of_size (m : N) (P : Exception → Prop)
    {T : Type} (d : Decodable T) : Prop :=
  Forward d ∧ consumes_at_least m d ∧ raises_only P d.

(** [decoded_in_order d s xs ys s']: starting at [s], the elements [xs] are
    decoded one after the other, each from where the one before stopped,
    all successfully, giving [ys] and leaving the stream at [s']. *)
Inductive decoded_in_order {T : Type} (d : Decodable T)
    : ScaleDecoderStream → list T → list T → ScaleDecoderStream → Prop :=
| in_order_nil s : decoded_in_order d s [] [] s
| in_order_cons s x xs ys s' :
    status (extract (Decodable := d) x s) = None →
    decoded_in_order d (stream (extract (Decodable := d) x s)) xs ys s' →
    decoded_in_order d s (x :: xs) (dest (extract (Decodable := d) x s) :: ys) s'.

(** The byte under the cursor, if any. *)
Definition peek (s : ScaleDecoderStream) : option byte :=
  span_ s !! N.to_nat (current_index_ s).

(** [v.which()]: the position of the held alternative. *)
Fixpoint which (Ts : list Type) : variant Ts → nat :=
  match Ts with
  | [] => λ v, match v with end
  | T :: Ts' => λ v,
    match v with
    | inl _ => O
    | inr w => S (which Ts' w)
    end
  end.

(** The [i]-th alternative of the declared list: its type, its decoder and
    how a value of it sits in the variant. *)
Record Selected (Ts : list Type) : Type := select {
  chosen : Type;
  chosen_decodable : Decodable chosen;
  chosen_put : chosen → variant Ts
}.
Arguments select {Ts} chosen chosen_decodable chosen_put.
Arguments chosen {Ts} _.
Arguments chosen_decodable {Ts} _.
Arguments chosen_put {Ts} _ _.

Fixpoint alternative_at (Ts : list Type) (i : nat)
    : Decodables Ts → option (Selected Ts) :=
  match Ts with
  | [] => λ _, None
  | T :: Ts' => λ alts,
    match i with
    | O => Some (select T alts.1 holds_first)
    | S j =>
      match alternative_at Ts' j alts.2 with
      | Some sel =>
        Some (select (chosen sel) (chosen_decodable sel)
                     (λ x, holds_later (chosen_put sel x)))
      | None => None
      end
    end
  end.

(** Decoding the [i]-th alternative from [s] and storing it in the variant:
    what the specification asks of a sum with a valid index. *)
Definition decode_selected {Ts : list Type} (sel : Selected Ts)
    (v : variant Ts) (s : ScaleDecoderStream) : Reply (variant Ts) :=
  let p := extract (Decodable := chosen_decodable sel)
                   (construct (Decodable := chosen_decodable sel)) s in
  match status p with
  | Some e => reply v (Some e) (stream p)
  | None => reply (chosen_put sel (dest p)) None (stream p)
  end.

(** The pairs that the loop of a map decode reads off the wire, in wire
    order: [n] pairs from [s], each decoded over the previous one. *)
Fixpoint wire_pairs {K V : Type} `{Decodable K, Decodable V}
    (n : nat) (pair_ : K * V) (s : ScaleDecoderStream) : list (K * V) :=
  match n with
  | O => []
  | S k =>
    let r := extract pair_ s in
    match status r with
    | Some _ => []
    | None => dest r :: wire_pairs k (dest r) (stream r)
    end
  end.

(** [(k, v)] is the first pair of [ps] with the key [k]. *)
Definition first_with_key {K V : Type} (ps : list (K * V)) (k : K) (v : V) : Prop :=
  ∃ i, ps !! i = Some (k, v) ∧ ∀ j p, (j < i)%nat → ps !! j = Some p → p.1 ≠ k.

(** [(k, v)] is the last pair of [ps] with the key [k]. *)
Definition last_with_key {K V : Type} (ps : list (K * V)) (k : K) (v : V) : Prop :=
  ∃ i, ps !! i = Some (k, v) ∧ ∀ j p, (i < j)%nat → ps !! j = Some p → p.1 ≠ k.

(** [emplace] of every pair of [ps] in turn, starting from [container]. *)
Definition emplace_all `{Countable K} {V : Type}
    (ps : list (K * V)) (container : gmap K V) : gmap K V :=
  foldl (λ m p, emplace p m) container ps.

(** ** The operations of a decoder *)

Section Operations.

Context (convert_to : CompactInteger → N)
        (bad_alloc length_error reserve_bad_alloc : N → bool).

(** The shapes the stream decodes: the built-in ones, closed under the
    type constructors, and user aggregates, whose decode operation reads
    through the stream. *)
Inductive Shape : ∀ T : Type, Decodable T → Prop :=
| shape_bool : Shape bool decodable_bool
| shape_uint8_t : Shape byte decodable_uint8_t
| shape_CompactInteger : Shape CompactInteger decodable_CompactInteger
| shape_optional T d :
    Shape T d → Shape (option T) (@decodable_optional T d)
| shape_shared_ptr T d :
    Shape T d → Shape (shared_ptr T) (@decodable_shared_ptr T d)
| shape_unique_ptr T d :
    Shape T d → Shape (unique_ptr T) (@decodable_unique_ptr T d)
| shape_pair F S dF dS :
    Shape F dF → Shape S dS → Shape (F * S) (@decodable_pair F S dF dS)
| shape_tuple Ts ds :
    Shapes Ts ds → Shape (tuple Ts) (@decodable_tuple Ts ds)
| shape_variant T Ts alts :
    Shapes (T :: Ts) alts →
    Shape (variant (T :: Ts)) (@decodable_variant T Ts alts)
| shape_vector T d :
    Shape T d → Shape (list T) (@decodable_vector convert_to bad_alloc length_error T d)
| shape_deque T d :
    Shape T d → Shape (list T) (@decodable_deque convert_to bad_alloc length_error T d)
| shape_vector_bool :
    Shape (list bool) (decodable_vector_bool convert_to)
| shape_list T d :
    Shape T d → Shape (list T) (@decodable_list convert_to reserve_bad_alloc T d)
| shape_map K `{Countable K} V dK dV :
    Shape K dK → Shape V dV →
    Shape (gmap K V) (@decodable_map convert_to K _ _ V dK dV)
| shape_array T d size :
    Shape T d → Shape (vec T size) (@decodable_array T d size)
| shape_static_collection T d size :
    Shape T d → Shape (vec T size) (@decodable_static_collection T d size)
| shape_user T d :
    Forward d → Shape T d
with Shapes : ∀ Ts : list Type, Decodables Ts → Prop :=
| shapes_nil : Shapes [] tt
| shapes_cons T Ts d alts :
    Shape T d → Shapes Ts alts → Shapes (T :: Ts) (d, alts).

(** One operation on the decoder: a query, a byte read, or a value read. *)
Inductive step : ScaleDecoderStream → ScaleDecoderStream → Prop :=
| step_hasMore (n : N) s (answer : bool) : answer = hasMore n s → step s s
| step_nextByte s : step s (nextByte s).2
| step_extract T d (v : T) s : Shape T d → step s (stream (extract (Decodable := d) v s)).

End Operations.

Scheme Shape_mutual := Minimality for Shape Sort Prop
  with Shapes_mutual := Minimality for Shapes Sort Prop.

(** Case analysis on every status and every test of the goal. *)
Ltac case_status :=
  repeat match goal with
         | |- context [match status ?r with _ => _ end] =>
           destruct (status r) eqn:?
         | |- context [if ?b then _ else _] => destruct b eqn:?
         end.

(** ** Decoding into a used destination *)

(** A decoder whose outcome does not depend on what the destination held
    before: the error and the stream afterwards are the same for any two
    destinations, and so is the decoded value when the decode returns. *)
Definition destination_blind {T : Type} (d : Decodable T) : Prop :=
  ∀ v v' s,
    status (extract (Decodable := d) v s) = status (extract (Decodable := d) v' s) ∧
    stream (extract (Decodable := d) v s) = stream (extract (Decodable := d) v' s) ∧
    (status (extract (Decodable := d) v s) = None →
       dest (extract (Decodable := d) v s) = dest (extract (Decodable := d) v' s)).

Section Plain.

Context (convert_to : CompactInteger → N)
        (bad_alloc length_error reserve_bad_alloc : N → bool).

(** The shapes built from the stream's own operators, over user aggregates
    whose decode operation is itself blind to the destination. *)
Inductive Plain : ∀ T : Type, Decodable T → Prop :=
| plain_bool : Plain bool decodable_bool
| plain_uint8_t : Plain byte decodable_uint8_t
| plain_CompactInteger : Plain CompactInteger decodable_CompactInteger
| plain_optional T d :
    Plain T d → Plain (option T) (@decodable_optional T d)
| plain_shared_ptr T d :
    Plain T d → Plain (shared_ptr T) (@decodable_shared_ptr T d)
| plain_unique_ptr T d :
    Plain T d → Plain (unique_ptr T) (@decodable_unique_ptr T d)
| plain_pair F S dF dS :
    Plain F dF → Plain S dS → Plain (F * S) (@decodable_pair F S dF dS)
| plain_tuple Ts ds :
    Plains Ts ds → Plain (tuple Ts) (@decodable_tuple Ts ds)
| plain_variant T Ts alts :
    Plains (T :: Ts) alts →
    Plain (variant (T :: Ts)) (@decodable_variant T Ts alts)
| plain_vector T d :
    Plain T d → Plain (list T) (@decodable_vector convert_to bad_alloc length_error T d)
| plain_deque T d :
    Plain T d → Plain (list T) (@decodable_deque convert_to bad_alloc length_error T d)
| plain_vector_bool :
    Plain (list bool) (decodable_vector_bool convert_to)
| plain_list T d :
    Plain T d → Plain (list T) (@decodable_list convert_to reserve_bad_alloc T d)
| plain_map K `{Countable K} V dK dV :
    Plain K dK → Plain V dV →
    Plain (gmap K V) (@decodable_map convert_to K _ _ V dK dV)
| plain_array T d size :
    Plain T d → Plain (vec T size) (@decodable_array T d size)
| plain_static_collection T d size :
    Plain T d → Plain (vec T size) (@decodable_static_collection T d size)
| plain_user T d :
    destination_blind d → Plain T d
with Plains : ∀ Ts : list Type, Decodables Ts → Prop :=
| plains_nil : Plains [] tt
| plains_cons T Ts d ds :
    Plain T d → Plains Ts ds → Plains (T :: Ts) (d, ds).

End Plain.

Scheme Plain_mutual := Minimality for Plain Sort Prop
  with Plains_mutual := Minimality for Plains Sort Prop.

(** * Properties *)

(** ** Wire examples *)

Example compact_one_byte :
  decodeCompactInteger (ScaleDecoderStream_of [xfc]) = (Done 63, mkStream [xfc] 1).
Proof. reflexivity. Qed.

Example compact_two_bytes :
  decodeCompactInteger (ScaleDecoderStream_of [xfd; xff])
    = (Done 16383, mkStream [xfd; xff] 2).
Proof. reflexivity. Qed.

Example compact_four_bytes :
  decodeCompactInteger (ScaleDecoderStream_of [x02; x00; x01; x00])
    = (Done 16384, mkStream [x02; x00; x01; x00] 4).
Proof. reflexivity. Qed.

Example compact_big_integer :
  decodeCompactInteger (ScaleDecoderStream_of [x03; x00; x00; x00; x40])
    = (Done 1073741824, mkStream [x03; x00; x00; x00; x40] 5).
Proof. reflexivity. Qed.

Example compact_header_asks_too_much :
  fst (decodeCompactInteger (ScaleDecoderStream_of [xff; xff; xff]))
    = Raise NOT_ENOUGH_DATA.
Proof. reflexivity. Qed.

Example vector_of_bytes :
  extract_vector convert_to_size_t bad_alloc_above_2_32 length_error_above_2_62
      (T := byte) [] (ScaleDecoderStream_of [x08; x01; x07; x09])
    = reply [x01; x07] None (mkStream [x08; x01; x07; x09] 3).
Proof. reflexivity. Qed.

Example tuple_of_bool_and_byte :
  extract_tuple (Ts := [bool : Type; byte : Type])
      (decodable_bool, (decodable_uint8_t, tt)) (false, (x00, tt))
      (ScaleDecoderStream_of [x01; x2a])
    = reply (true, (x2a, tt)) None (mkStream [x01; x2a] 2).
Proof. reflexivity. Qed.

(** ** The byte under the cursor *)

Lemma peek_Some_hasMore s b : peek s = Some b → hasMore 1 s = true.
Proof.
  unfold peek, hasMore. intros Hb.
  apply lookup_lt_Some in Hb. apply N.leb_le. lia.
Qed.

Lemma peek_None_hasMore s : peek s = None → hasMore 1 s = false.
Proof.
  unfold peek, hasMore. intros Hb.
  apply lookup_ge_None in Hb. apply N.leb_gt. lia.
Qed.

Lemma nextByte_peek s b : peek s = Some b → nextByte s = (Done b, advance 1 s).
Proof.
  intros Hb. unfold nextByte. rewrite (peek_Some_hasMore s b Hb).
  unfold peek in Hb. by rewrite Hb.
Qed.

Lemma nextByte_end s : peek s = None → nextByte s = (Raise NOT_ENOUGH_DATA, s).
Proof.
  intros Hb. unfold nextByte. by rewrite (peek_None_hasMore s Hb).
Qed.

Lemma hasMore_1_peek s : hasMore 1 s = true → is_Some (peek s).
Proof.
  unfold hasMore, peek. intros Hm. apply N.leb_le in Hm.
  apply lookup_lt_is_Some. lia.
Qed.

(** ** Booleans and optionals *)

Lemma extract_bool_peek v s b :
  peek s = Some b →
  extract (T := bool) v s =
    match Byte.to_N b with
    | 0 => reply false None (advance 1 s)
    | 1 => reply true None (advance 1 s)
    | _ => reply v (Some UNEXPECTED_VALUE) (advance 1 s)
    end.
Proof.
  intros Hb. cbn. unfold assign, decodeBool, bind.
  rewrite (nextByte_peek s b Hb).
  destruct (Byte.to_N b) as [|[p|p|]]; reflexivity.
Qed.

(** C6. With a byte [b] under the cursor, decoding a boolean takes exactly
    that one byte, whatever its value; 0x00 gives [false], 0x01 gives
    [true], and any other byte fails with [UNEXPECTED_VALUE]. *)
Theorem bool_decode (v : bool) (s : ScaleDecoderStream) (b : byte) :
  peek s = Some b →
  let r := extract (T := bool) v s in
  stream r = advance 1 s ∧
  (Byte.to_N b = 0 → status r = None ∧ dest r = false) ∧
  (Byte.to_N b = 1 → status r = None ∧ dest r = true) ∧
  (Byte.to_N b ≠ 0 → Byte.to_N b ≠ 1 → status r = Some UNEXPECTED_VALUE).
Proof.
  intros Hb r. subst r. rewrite (extract_bool_peek v s b Hb).
  destruct (Byte.to_N b) as [|[p|p|]]; cbn; repeat split; try congruence; try lia.
Qed.

Lemma bool_decode_witness :
  let r := extract (T := bool) false (mkStream [x01; x09] 0) in
  stream r = advance 1 (mkStream [x01; x09] 0) ∧
  (Byte.to_N x01 = 0 → status r = None ∧ dest r = false) ∧
  (Byte.to_N x01 = 1 → status r = None ∧ dest r = true) ∧
  (Byte.to_N x01 ≠ 0 → Byte.to_N x01 ≠ 1 → status r = Some UNEXPECTED_VALUE).
Proof.
  apply (bool_decode false (mkStream [x01; x09] 0) x01). reflexivity.
Defined.

(** C3. With a byte [b] under the cursor, decoding an optional boolean takes
    exactly that one byte; 0 gives absent, 1 present [true], 2 present
    [false], and a byte above 2 fails with [UNEXPECTED_VALUE]. *)
Theorem optional_bool_decode (v : option bool) (s : ScaleDecoderStream) (b : byte) :
  peek s = Some b →
  let r := extract (T := option bool) v s in
  stream r = advance 1 s ∧
  (Byte.to_N b = 0 → status r = None ∧ dest r = None) ∧
  (Byte.to_N b = 1 → status r = None ∧ dest r = Some true) ∧
  (Byte.to_N b = 2 → status r = None ∧ dest r = Some false) ∧
  (2 < Byte.to_N b → status r = Some UNEXPECTED_VALUE).
Proof.
  intros Hb r. subst r. cbn. unfold extract_optional. cbn.
  unfold assign, decodeOptionalBool, bind.
  rewrite (nextByte_peek s b Hb).
  destruct (Byte.to_N b) as [|[[p|p|]|[p|p|]|]]; cbn; repeat split; try congruence; try lia.
Qed.

Lemma optional_bool_decode_witness :
  let r := extract (T := option bool) None (mkStream [x02; x01] 0) in
  stream r = advance 1 (mkStream [x02; x01] 0) ∧
  (Byte.to_N x02 = 0 → status r = None ∧ dest r = None) ∧
  (Byte.to_N x02 = 1 → status r = None ∧ dest r = Some true) ∧
  (Byte.to_N x02 = 2 → status r = None ∧ dest r = Some false) ∧
  (2 < Byte.to_N x02 → status r = Some UNEXPECTED_VALUE).
Proof.
  apply (optional_bool_decode None (mkStream [x02; x01] 0) x02). reflexivity.
Defined.

(** C5. For a type [T] other than [bool], with a discriminant byte [b] under
    the cursor: 0 gives absent and nothing more is read, 1 gives present
    with the value decoded from the next byte on, and any other byte fails
    with [UNEXPECTED_VALUE]. *)
Theorem optional_decode `{Decodable T} (v : option T) (s : ScaleDecoderStream) (b : byte) :
  from_bool (T := T) = None →
  peek s = Some b →
  let r := extract (T := option T) v s in
  let p := extract (construct (T := T)) (advance 1 s) in
  (Byte.to_N b = 0 → r = reply None None (advance 1 s)) ∧
  (Byte.to_N b = 1 → r = reply (Some (dest p)) (status p) (stream p)) ∧
  (Byte.to_N b ≠ 0 → Byte.to_N b ≠ 1 →
     r = reply v (Some UNEXPECTED_VALUE) (advance 1 s)).
Proof.
  intros Hnb Hb r p. subst r p. cbn. unfold extract_optional.
  rewrite Hnb, (extract_bool_peek false s b Hb).
  destruct (Byte.to_N b) as [|[q|q|]]; cbn; repeat split; try congruence; try lia.
Qed.

Lemma optional_decode_witness :
  let s := mkStream [x01; x07] 0 in
  let r := extract (T := option byte) None s in
  let p := extract (construct (T := byte)) (advance 1 s) in
  (Byte.to_N x01 = 0 → r = reply None None (advance 1 s)) ∧
  (Byte.to_N x01 = 1 → r = reply (Some (dest p)) (status p) (stream p)) ∧
  (Byte.to_N x01 ≠ 0 → Byte.to_N x01 ≠ 1 →
     r = reply None (Some UNEXPECTED_VALUE) (advance 1 s)).
Proof.
  apply (optional_decode (T := byte) None (mkStream [x01; x07] 0) x01); reflexivity.
Defined.

(** ** Reading only forward *)

#[global] Instance advances_refl : Reflexive advances.
Proof. intros s. by repeat split. Qed.

#[global] Instance advances_trans : Transitive advances.
Proof.
  intros s1 s2 s3 (Hs & Hi & Hb) (Hs' & Hi' & Hb').
  repeat split; [congruence | lia | auto].
Qed.

Lemma advances_advance k s : hasMore k s = true → advances s (advance k s).
Proof.
  unfold hasMore, advances, in_bounds. intros Hm%N.leb_le. cbn.
  repeat split; lia.
Qed.

Lemma nextByte_forward : reads_forward nextByte.
Proof.
  intros s. unfold nextByte.
  destruct (hasMore 1 s) eqn:Hm; [|reflexivity].
  destruct (span_ s !! _); [|reflexivity]. by apply advances_advance.
Qed.

Lemma nextBytes_forward k : reads_forward (nextBytes k).
Proof.
  intros s. unfold nextBytes.
  destruct (hasMore k s) eqn:Hm; [|reflexivity]. by apply advances_advance.
Qed.

Lemma ret_forward {A} (a : A) : reads_forward (ret a).
Proof. intros s. reflexivity. Qed.

Lemma raise_forward {A} e : reads_forward (raise (A := A) e).
Proof. intros s. reflexivity. Qed.

Lemma bind_forward {A B} (m : Fallible A) (k : A → Fallible B) :
  reads_forward m → (∀ a, reads_forward (k a)) → reads_forward (bind m k).
Proof.
  intros Hm Hk s. unfold bind. specialize (Hm s).
  destruct (m s) as [[a|e] s1]; cbn in *; [|done].
  etrans; [exact Hm | apply Hk].
Qed.

Lemma decodeBool_forward : reads_forward decodeBool.
Proof.
  apply bind_forward; [apply nextByte_forward|]. intros b.
  destruct (Byte.to_N b) as [|[p|p|]];
    first [apply ret_forward | apply raise_forward].
Qed.

Lemma decodeOptionalBool_forward : reads_forward decodeOptionalBool.
Proof.
  apply bind_forward; [apply nextByte_forward|]. intros b.
  destruct (Byte.to_N b) as [|[[p|p|]|[p|p|]|]];
    first [apply ret_forward | apply raise_forward].
Qed.

Lemma decodeCompactInteger_forward : reads_forward decodeCompactInteger.
Proof.
  apply bind_forward; [apply nextByte_forward|]. intros b. cbv zeta.
  destruct (N.land (Byte.to_N b) 3) as [|[[p|p|]|[p|p|]|]];
    repeat first [ apply ret_forward
                 | apply bind_forward; [apply nextBytes_forward | intros ?] ].
Qed.

Lemma assign_forward {A T} (f : Fallible A) (set : A → T) v s :
  reads_forward f → advances s (stream (assign f set v s)).
Proof.
  intros Hf. unfold assign. specialize (Hf s).
  by destruct (f s) as [[a|e] s1].
Qed.

Lemma Forward_bool : Forward decodable_bool.
Proof. intros v s. apply assign_forward, decodeBool_forward. Qed.

Lemma Forward_uint8_t : Forward decodable_uint8_t.
Proof. intros v s. apply assign_forward, nextByte_forward. Qed.

Lemma Forward_CompactInteger : Forward decodable_CompactInteger.
Proof. intros v s. apply assign_forward, decodeCompactInteger_forward. Qed.

Lemma Forward_optional T (d : Decodable T) :
  Forward d → Forward (@decodable_optional T d).
Proof.
  intros Hd v s. cbn. unfold extract_optional.
  destruct from_bool; [apply assign_forward, decodeOptionalBool_forward|].
  pose proof (Forward_bool false s) as Hh.
  destruct (status (extract false s)); [done|].
  destruct (dest (extract false s)); cbn; [|done].
  etrans; [exact Hh | apply Hd].
Qed.

Lemma Forward_shared_ptr T (d : Decodable T) :
  Forward d → Forward (@decodable_shared_ptr T d).
Proof. intros Hd v s. apply Hd. Qed.

Lemma Forward_unique_ptr T (d : Decodable T) :
  Forward d → Forward (@decodable_unique_ptr T d).
Proof. intros Hd v s. apply Hd. Qed.

Lemma Forward_pair F S (dF : Decodable F) (dS : Decodable S) :
  Forward dF → Forward dS → Forward (@decodable_pair F S dF dS).
Proof.
  intros HF HS p s. cbn. unfold extract_pair.
  pose proof (HF p.1 s) as H1.
  destruct (status (extract p.1 s)); cbn; [done|].
  etrans; [exact H1 | apply HS].
Qed.

(** Every alternative of the list reads forward. *)
Lemma tryDecodeAsOneOfVariant_forward {V} Ts :
  ∀ (alts : Decodables Ts) I (put : variant Ts → V) v i s,
    (∀ j sel, alternative_at Ts j alts = Some sel → Forward (chosen_decodable sel)) →
    advances s (stream (tryDecodeAsOneOfVariant Ts I alts put v i s)).
Proof.
  induction Ts as [|T Ts IH]; intros alts I put v i s Hall; cbn; [done|].
  destruct (I =? i).
  - pose proof (Hall O _ eq_refl (construct (Decodable := alts.1)) s) as H1.
    cbn in H1. by destruct (status _).
  - apply IH. intros j sel Hj.
    apply (Hall (S j) (select (chosen sel) (chosen_decodable sel)
                              (λ x, holds_later (chosen_put sel x)))).
    cbn. by rewrite Hj.
Qed.

Lemma extract_variant_forward Ts (alts : Decodables Ts) v s :
  (∀ j sel, alternative_at Ts j alts = Some sel → Forward (chosen_decodable sel)) →
  advances s (stream (extract_variant alts v s)).
Proof.
  intros Hall. unfold extract_variant.
  pose proof (Forward_uint8_t x00 s) as Ht.
  destruct (status (extract x00 s)); [done|].
  destruct (_ <=? _); [done|].
  etrans; [exact Ht | by apply tryDecodeAsOneOfVariant_forward].
Qed.

Lemma decodeElementOfTuple_forward Ts :
  ∀ (ds : Decodables Ts) v s,
    (∀ j sel, alternative_at Ts j ds = Some sel → Forward (chosen_decodable sel)) →
    advances s (stream (decodeElementOfTuple Ts ds v s)).
Proof.
  induction Ts as [|T Ts IH]; intros ds v s Hall; cbn; [done|].
  pose proof (Hall O _ eq_refl v.1 s) as H1. cbn in H1.
  destruct (status (extract v.1 s)); cbn; [done|].
  etrans; [exact H1|]. apply IH. intros j sel Hj.
  apply (Hall (S j) (select (chosen sel) (chosen_decodable sel)
                            (λ x, holds_later (chosen_put sel x)))).
  cbn. by rewrite Hj.
Qed.

Lemma repeat_times_forward {L} n (body : L → ScaleDecoderStream → Reply L) :
  (∀ l s, advances s (stream (body l s))) →
  ∀ l s, advances s (stream (repeat_times n body l s)).
Proof.
  intros Hbody. induction n as [|n IH]; intros l s; cbn; [done|].
  pose proof (Hbody l s) as H1.
  destruct (status (body l s)); [done|].
  etrans; [exact H1 | apply IH].
Qed.

Lemma extract_items_forward T (d : Decodable T) :
  Forward d → ∀ container s, advances s (stream (extract_items container s)).
Proof.
  intros Hd. induction container as [|el rest IH]; intros s; cbn; [done|].
  pose proof (Hd el s) as H1.
  destruct (status (extract el s)); cbn; [done|].
  etrans; [exact H1 | apply IH].
Qed.

Lemma extract_elements_forward T (d : Decodable T) :
  Forward d → ∀ size (a : vec T size) s, advances s (stream (extract_elements a s)).
Proof.
  intros Hd size a. induction a as [|el size rest IH]; intros s; cbn; [done|].
  pose proof (Hd el s) as H1.
  destruct (status (extract el s)); cbn; [done|].
  etrans; [exact H1 | apply IH].
Qed.

Lemma Forward_array T (d : Decodable T) size :
  Forward d → Forward (@decodable_array T d size).
Proof. intros Hd a s. by apply extract_elements_forward. Qed.

Lemma Forward_static_collection T (d : Decodable T) size :
  Forward d → Forward (@decodable_static_collection T d size).
Proof.
  intros Hd c s. cbn. unfold extract_static_collection.
  pose proof (extract_elements_forward T d Hd size
                (vreplicate size construct) s) as H1.
  by destruct (status _).
Qed.

Section ForwardContainers.

Context (convert_to : CompactInteger → N)
        (bad_alloc length_error reserve_bad_alloc : N → bool).

Lemma decodeVectorLike_forward T (d : Decodable T) :
  Forward d →
  ∀ v s, advances s (stream (decodeVectorLike convert_to bad_alloc length_error v s)).
Proof.
  intros Hd v s. unfold decodeVectorLike.
  pose proof (Forward_CompactInteger 0 s) as Hn.
  destruct (status (extract (T := CompactInteger) 0 s)); [exact Hn|].
  destruct (bad_alloc _); [exact Hn|].
  destruct (length_error _); [exact Hn|].
  pose proof (extract_items_forward T d Hd
    (replicate (N.to_nat (convert_to (dest (extract (T := CompactInteger) 0 s)))) construct)
    (stream (extract (T := CompactInteger) 0 s))) as Hi.
  destruct (status (extract_items _ _)); cbn; by etrans.
Qed.

Lemma extract_vector_bool_forward v s :
  advances s (stream (extract_vector_bool convert_to v s)).
Proof.
  unfold extract_vector_bool.
  pose proof (Forward_CompactInteger 0 s) as Hn.
  destruct (status (extract (T := CompactInteger) 0 s)); [exact Hn|].
  match goal with
  | |- context [repeat_times ?n ?body ?l ?s1] =>
    assert (advances s1 (stream (repeat_times n body l s1))) as Hl
  end.
  { apply repeat_times_forward. intros [container el] s'.
    pose proof (Forward_bool el s') as Hb.
    by destruct (status (extract el s')). }
  destruct (status (repeat_times _ _ _ _)); cbn; by etrans.
Qed.

Lemma extract_list_forward T (d : Decodable T) :
  Forward d →
  ∀ v s, advances s (stream (extract_list convert_to reserve_bad_alloc v s)).
Proof.
  intros Hd v s. unfold extract_list.
  pose proof (Forward_CompactInteger 0 s) as Hn.
  destruct (status (extract (T := CompactInteger) 0 s)); [exact Hn|].
  destruct (reserve_bad_alloc _); [exact Hn|].
  match goal with
  | |- context [repeat_times ?n ?body ?l ?s1] =>
    assert (advances s1 (stream (repeat_times n body l s1))) as Hl
  end.
  { apply repeat_times_forward. intros lst s'. apply Hd. }
  destruct (status (repeat_times _ _ _ _)); cbn; by etrans.
Qed.

Lemma extract_map_forward `{Countable K} V (dK : Decodable K) (dV : Decodable V) :
  Forward dK → Forward dV →
  ∀ (c : gmap K V) s, advances s (stream (extract_map convert_to c s)).
Proof.
  intros HK HV c s. unfold extract_map.
  pose proof (Forward_CompactInteger 0 s) as Hn.
  destruct (status (extract (T := CompactInteger) 0 s)); [exact Hn|].
  match goal with
  | |- context [repeat_times ?n ?body ?l ?s1] =>
    assert (advances s1 (stream (repeat_times n body l s1))) as Hl
  end.
  { apply repeat_times_forward. intros [container p] s'.
    pose proof (Forward_pair K V dK dV HK HV p s') as Hp.
    by destruct (status (extract p s')). }
  destruct (status (repeat_times _ _ _ _)); cbn; by etrans.
Qed.

(** Every shape of the stream reads forward. *)
Lemma Shape_Forward T (d : Decodable T) :
  Shape convert_to bad_alloc length_error reserve_bad_alloc T d → Forward d.
Proof.
  revert T d.
  apply (Shape_mutual convert_to bad_alloc length_error reserve_bad_alloc
           (λ T d, Forward d)
           (λ Ts alts, ∀ j sel, alternative_at Ts j alts = Some sel →
                                Forward (chosen_decodable sel))).
  - apply Forward_bool.
  - apply Forward_uint8_t.
  - apply Forward_CompactInteger.
  - intros T d _. apply Forward_optional.
  - intros T d _. apply Forward_shared_ptr.
  - intros T d _. apply Forward_unique_ptr.
  - intros F S dF dS _ HF _ HS. by apply Forward_pair.
  - intros Ts ds _ Hds v s. by apply decodeElementOfTuple_forward.
  - intros T Ts alts _ Halts v s. by apply extract_variant_forward.
  - intros T d _ Hd v s. by apply decodeVectorLike_forward.
  - intros T d _ Hd v s. by apply decodeVectorLike_forward.
  - intros v s. apply extract_vector_bool_forward.
  - intros T d _ Hd v s. by apply extract_list_forward.
  - intros K ? ? V dK dV _ HK _ HV c s. by apply extract_map_forward.
  - intros T d size _. apply Forward_array.
  - intros T d size _. apply Forward_static_collection.
  - auto.
  - intros j sel Hj. discriminate.
  - intros T Ts d alts _ Hd _ IH [|j] sel Hj; cbn in Hj.
    + injection Hj as <-. exact Hd.
    + destruct (alternative_at Ts j alts) as [sel'|] eqn:Hsel; [|discriminate].
      injection Hj as <-. cbn. by apply (IH j).
Qed.

Lemma step_advances s s' :
  step convert_to bad_alloc length_error reserve_bad_alloc s s' → advances s s'.
Proof.
  intros [n s0 answer _|s0|T d v s0 Hd].
  - reflexivity.
  - apply nextByte_forward.
  - by apply Shape_Forward.
Qed.

Lemma steps_advance s s' :
  rtc (step convert_to bad_alloc length_error reserve_bad_alloc) s s' →
  advances s s'.
Proof.
  induction 1 as [|s1 s2 s3 Hstep _ IH]; [reflexivity|].
  etrans; [by apply step_advances | exact IH].
Qed.

Lemma hasMore_remaining n s :
  in_bounds s → hasMore n s = true ↔ n ≤ remaining s.
Proof.
  unfold in_bounds, hasMore, remaining. intros Hb.
  rewrite N.leb_le. lia.
Qed.

(** C8. Along every sequence of operations on a decoder built over
    [bytes], the span stays [bytes] and the cursor never moves back;
    [hasMore n] is a query on the stream (its operation leaves the stream
    as it is) and answers whether at least [n] bytes remain. *)
Theorem cursor_only_forward (bytes : list byte) (s s' : ScaleDecoderStream) :
  rtc (step convert_to bad_alloc length_error reserve_bad_alloc)
      (ScaleDecoderStream_of bytes) s →
  rtc (step convert_to bad_alloc length_error reserve_bad_alloc) s s' →
  span_ s = bytes ∧ span_ s' = bytes ∧
  current_index_ s ≤ current_index_ s' ∧
  (∀ n, hasMore n s = true ↔ n ≤ remaining s).
Proof.
  intros (Hs0 & _ & Hb0)%steps_advance (Hs & Hi & _)%steps_advance.
  cbn in Hs0. split; [congruence|]. split; [congruence|]. split; [lia|].
  intros n. apply hasMore_remaining, Hb0. unfold in_bounds. cbn. lia.
Qed.

End ForwardContainers.

Lemma cursor_only_forward_witness :
  let bytes := [x01; x07; x00] in
  let s := mkStream bytes 1 in
  let s' := mkStream bytes 3 in
  span_ s = bytes ∧ span_ s' = bytes ∧
  current_index_ s ≤ current_index_ s' ∧
  (∀ n, hasMore n s = true ↔ n ≤ remaining s).
Proof.
  apply (cursor_only_forward convert_to_size_t bad_alloc_above_2_32
           length_error_above_2_62 bad_alloc_above_2_32
           [x01; x07; x00] (mkStream [x01; x07; x00] 1) (mkStream [x01; x07; x00] 3)).
  - eapply rtc_l; [apply step_nextByte|]. apply rtc_refl.
  - eapply rtc_l;
      [apply (step_extract _ _ _ _ (option byte) _ None), shape_optional, shape_uint8_t|].
    eapply rtc_l; [apply (step_hasMore _ _ _ _ 2 _ false); reflexivity|].
    eapply rtc_l;
      [apply (step_extract _ _ _ _ bool _ true), shape_bool|].
    apply rtc_refl.
Defined.

(** ** Pointers *)

(** C9. Decoding a [shared_ptr<T>] or a [unique_ptr<T>] leaves the stream
    where decoding a [T] from the same input leaves it, returns or raises
    the same error, and the pointee is the value that decoding a fresh [T]
    produces. *)
Theorem pointer_decode_as_pointee `{Decodable T}
    (vs : shared_ptr T) (vu : unique_ptr T) (s : ScaleDecoderStream) :
  let direct := extract (construct (T := T)) s in
  let shared := extract (T := shared_ptr T) vs s in
  let unique := extract (T := unique_ptr T) vu s in
  (stream shared = stream direct ∧ status shared = status direct ∧
   dest shared = make_shared (dest direct)) ∧
  (stream unique = stream direct ∧ status unique = status direct ∧
   dest unique = make_unique (dest direct)).
Proof. by repeat split. Qed.

(** ** Sum types *)

Lemma alternative_at_S T Ts j (alts : Decodables (T :: Ts)) :
  alternative_at (T :: Ts) (S j) alts =
    match alternative_at Ts j alts.2 with
    | Some sel =>
      Some (select (chosen sel) (chosen_decodable sel)
                   (λ x, holds_later (chosen_put sel x)))
    | None => None
    end.
Proof. reflexivity. Qed.

Lemma tryDecodeAsOneOfVariant_selects {V} Ts :
  ∀ (alts : Decodables Ts) I (put : variant Ts → V) v i s,
    I ≤ i → i - I < N.of_nat (length Ts) →
    ∃ sel, alternative_at Ts (N.to_nat (i - I)) alts = Some sel ∧
      tryDecodeAsOneOfVariant Ts I alts put v i s =
        let p := extract (Decodable := chosen_decodable sel)
                         (construct (Decodable := chosen_decodable sel)) s in
        match status p with
        | Some e => reply v (Some e) (stream p)
        | None => reply (put (chosen_put sel (dest p))) None (stream p)
        end.
Proof.
  induction Ts as [|T Ts IH]; intros alts I put v i s HI Hlt;
    [cbn in Hlt; lia|].
  rewrite length_cons, Nat2N.inj_succ in Hlt.
  cbn [tryDecodeAsOneOfVariant].
  destruct (N.eqb_spec I i) as [->|Hne].
  - rewrite N.sub_diag. eexists. split; reflexivity.
  - destruct (IH alts.2 (I + 1) (λ w, put (holds_later w)) v i s)
      as (sel & Hsel & Heq); [lia | lia |].
    replace (N.to_nat (i - I)) with (S (N.to_nat (i - (I + 1)))) by lia.
    exists (select (chosen sel) (chosen_decodable sel)
                   (λ x, holds_later (chosen_put sel x))).
    split; [by rewrite alternative_at_S, Hsel | exact Heq].
Qed.

Lemma which_alternative_at Ts :
  ∀ (alts : Decodables Ts) j sel,
    alternative_at Ts j alts = Some sel →
    ∀ x, which Ts (chosen_put sel x) = j.
Proof.
  induction Ts as [|T Ts IH]; intros alts j sel Hsel x; [discriminate|].
  destruct j as [|j]; cbn in Hsel.
  - by injection Hsel as <-.
  - destruct (alternative_at Ts j alts.2) as [sel'|] eqn:Hj; [|discriminate].
    injection Hsel as <-. cbn. f_equal. by apply (IH alts.2).
Qed.

Lemma extract_variant_index {Ts} (alts : Decodables Ts) v s b :
  peek s = Some b →
  extract_variant alts v s =
    if N.of_nat (length Ts) <=? Byte.to_N b
    then reply v (Some WRONG_TYPE_INDEX) (advance 1 s)
    else tryDecodeAsOneOfVariant Ts 0 alts id v (Byte.to_N b) (advance 1 s).
Proof.
  intros Hb. unfold extract_variant. cbn. unfold assign.
  by rewrite (nextByte_peek s b Hb).
Qed.

(** C4 (amended). With an index byte [i] under the cursor and [n]
    alternatives: if [i ≥ n] decoding fails with [WRONG_TYPE_INDEX] after
    the index byte; if [i < n] the payload is decoded as the [i]-th
    alternative of the declared list and the result, value or error, is
    that payload's.  Hence decoding fails with [WRONG_TYPE_INDEX] exactly
    when [i ≥ n] or the payload's own decode fails with it. *)
Theorem variant_decode {Ts : list Type} (alts : Decodables Ts)
    (v : variant Ts) (s : ScaleDecoderStream) (b : byte) :
  peek s = Some b →
  let i := Byte.to_N b in
  let n := N.of_nat (length Ts) in
  let r := extract_variant alts v s in
  (n ≤ i → r = reply v (Some WRONG_TYPE_INDEX) (advance 1 s)) ∧
  (i < n →
     ∃ sel, alternative_at Ts (N.to_nat i) alts = Some sel ∧
            r = decode_selected sel v (advance 1 s) ∧
            (status r = None → which Ts (dest r) = N.to_nat i)) ∧
  (status r = Some WRONG_TYPE_INDEX ↔
     n ≤ i ∨
     ∃ sel, alternative_at Ts (N.to_nat i) alts = Some sel ∧
            status (decode_selected sel v (advance 1 s)) = Some WRONG_TYPE_INDEX).
Proof.
  intros Hb. cbv zeta. rewrite (extract_variant_index alts v s b Hb).
  generalize (Byte.to_N b). intros i.
  destruct (N.leb_spec (N.of_nat (length Ts)) i) as [Hge|Hlt].
  - split; [done|]. split; [lia|]. split; [by left | done].
  - destruct (tryDecodeAsOneOfVariant_selects Ts alts 0 id v i (advance 1 s))
      as (sel & Hsel & Heq); [lia | lia |].
    rewrite N.sub_0_r in Hsel. rewrite Heq. clear Heq.
    change (let p := _ in _) with (decode_selected sel v (advance 1 s)).
    split; [lia|]. split.
    + intros _. exists sel. repeat split; [done|].
      unfold decode_selected. destruct (status (extract _ _)); [done|].
      intros _. cbn. by apply (which_alternative_at Ts alts).
    + split.
      * intros Hw. right. by exists sel.
      * intros [Hge|(sel' & Hsel' & Hw)]; [lia|]. congruence.
Qed.

Lemma variant_decode_witness :
  let Ts := [byte : Type; bool : Type; byte : Type; byte : Type] in
  let alts : Decodables Ts :=
    (decodable_uint8_t, (decodable_bool, (decodable_uint8_t, (decodable_uint8_t, tt)))) in
  let v : variant Ts := holds_first x00 in
  let s := ScaleDecoderStream_of [x02; x07] in
  extract_variant alts v s =
    reply (holds_later (holds_later (holds_first x07))) None (mkStream [x02; x07] 2).
Proof.
  intros Ts alts v s.
  destruct (variant_decode alts v s x02 eq_refl) as (_ & Hlt & _).
  destruct Hlt as (sel & Hsel & Hr & _); [cbn; lia|].
  rewrite Hr. cbn in Hsel. injection Hsel as <-. reflexivity.
Defined.

(** The claim C4 as it is worded fails for a sum whose payload is itself a
    sum: the outer index 0 is below the outer count 1, and decoding still
    fails with [WRONG_TYPE_INDEX], raised for the inner index 5. *)
Lemma variant_index_iff_counterexample :
  let inner : Decodables [byte : Type] := (decodable_uint8_t, tt) in
  let Ts := [variant [byte : Type]] in
  let alts : Decodables Ts := (decodable_variant inner, tt) in
  let s := ScaleDecoderStream_of [x00; x05] in
  let r := extract_variant alts (holds_first (holds_first x00)) s in
  peek s = Some x00 ∧
  ¬ (status r = Some WRONG_TYPE_INDEX ↔ N.of_nat (length Ts) ≤ Byte.to_N x00).
Proof.
  cbn. split; [reflexivity|]. intros [Hwrong _].
  specialize (Hwrong eq_refl). lia.
Qed.

(** ** The destination of a failed container decode *)

Section Destination.

Context (convert_to : CompactInteger → N)
        (bad_alloc length_error reserve_bad_alloc : N → bool).

(** C10. When the decode of a vector, deque, non-static collection,
    [vector<bool>], list, map or static collection fails, wherever it
    fails, the destination is what it was before the call. *)
Theorem failed_decode_keeps_destination
    {T : Type} (dT : Decodable T)
    {K : Type} `{Countable K} {V : Type} (dK : Decodable K) (dV : Decodable V)
    {size : nat}
    (v : list T) (vb : list bool) (c : gmap K V) (sc : vec T size)
    (s : ScaleDecoderStream) (e : Exception) :
  (status (extract_vector convert_to bad_alloc length_error v s) = Some e →
     dest (extract_vector convert_to bad_alloc length_error v s) = v) ∧
  (status (extract_deque convert_to bad_alloc length_error v s) = Some e →
     dest (extract_deque convert_to bad_alloc length_error v s) = v) ∧
  (status (extract_collection convert_to bad_alloc length_error v s) = Some e →
     dest (extract_collection convert_to bad_alloc length_error v s) = v) ∧
  (status (extract_vector_bool convert_to vb s) = Some e →
     dest (extract_vector_bool convert_to vb s) = vb) ∧
  (status (extract_list convert_to reserve_bad_alloc v s) = Some e →
     dest (extract_list convert_to reserve_bad_alloc v s) = v) ∧
  (status (extract_map convert_to c s) = Some e →
     dest (extract_map convert_to c s) = c) ∧
  (status (extract_static_collection sc s) = Some e →
     dest (extract_static_collection sc s) = sc).
Proof.
  unfold extract_vector, extract_deque, extract_collection, decodeVectorLike,
    extract_vector_bool, extract_list, extract_map, extract_static_collection.
  repeat split; case_status; cbn; congruence.
Qed.

End Destination.

Lemma failed_decode_keeps_destination_witness :
  let s := ScaleDecoderStream_of [x08; x01] in
  dest (extract_vector convert_to_size_t bad_alloc_above_2_32
          length_error_above_2_62 [x2a; x2b] s) = [x2a; x2b] ∧
  dest (extract_vector_bool convert_to_size_t [true] s) = [true] ∧
  dest (extract_deque convert_to_size_t bad_alloc_above_2_32
          length_error_above_2_62 [x2a] s) = [x2a] ∧
  dest (extract_map convert_to_size_t ({[x01 := x02]} : gmap byte byte) s) = {[x01 := x02]} ∧
  dest (extract_static_collection [# x2a; x2b] (ScaleDecoderStream_of [x01])) = [# x2a; x2b].
Proof.
  intros s.
  pose proof (failed_decode_keeps_destination convert_to_size_t bad_alloc_above_2_32
                length_error_above_2_62 bad_alloc_above_2_32
                decodable_uint8_t decodable_uint8_t decodable_uint8_t
                [x2a; x2b] [true] ({[x01 := x02]} : gmap byte byte) [# x2a; x2b]
                s NOT_ENOUGH_DATA) as (Hv & _ & _ & Hb & _ & Hm & _).
  pose proof (failed_decode_keeps_destination convert_to_size_t bad_alloc_above_2_32
                length_error_above_2_62 bad_alloc_above_2_32
                decodable_uint8_t decodable_uint8_t decodable_uint8_t
                [x2a] [true] ({[x01 := x02]} : gmap byte byte) [# x2a; x2b]
                s NOT_ENOUGH_DATA) as (_ & Hl & _).
  pose proof (failed_decode_keeps_destination convert_to_size_t bad_alloc_above_2_32
                length_error_above_2_62 bad_alloc_above_2_32
                decodable_uint8_t decodable_uint8_t decodable_uint8_t
                [x2a] [true] ({[x01 := x02]} : gmap byte byte) [# x2a; x2b]
                (ScaleDecoderStream_of [x01]) NOT_ENOUGH_DATA) as (_ & _ & _ & _ & _ & _ & Hs).
  split; [apply Hv; reflexivity|].
  split; [apply Hb; reflexivity|].
  split; [apply Hl; reflexivity|].
  split; [apply Hm; reflexivity|].
  apply Hs. reflexivity.
Defined.

(** ** Elements of a minimal size *)

Lemma extract_items_consumes T (d : Decodable T) m :
  consumes_at_least m d →
  ∀ container s,
    status (extract_items container s) = None →
    current_index_ s + N.of_nat (length container) * m
      ≤ current_index_ (stream (extract_items container s)).
Proof.
  intros Hm. induction container as [|el rest IH]; intros s Hok.
  - cbn. lia.
  - cbn [extract_items] in *. pose proof (Hm el s) as Hel.
    destruct (status (extract el s)); [discriminate|]. cbn [status stream] in *.
    specialize (Hel eq_refl). specialize (IH _ Hok).
    rewrite length_cons, Nat2N.inj_succ, N.mul_succ_l. lia.
Qed.

Lemma extract_items_raises T (d : Decodable T) P :
  raises_only P d →
  ∀ container s e, status (extract_items container s) = Some e → P e.
Proof.
  intros HP. induction container as [|el rest IH]; intros s e Hfail;
    cbn [extract_items] in *; [discriminate|].
  destruct (status (extract el s)) eqn:Hel; cbn [status] in *.
  - injection Hfail as ->. by apply (HP el s).
  - by apply (IH _ _ Hfail).
Qed.

Lemma repeat_times_consumes {L} (body : L → ScaleDecoderStream → Reply L) m :
  (∀ l s, status (body l s) = None →
          current_index_ s + m ≤ current_index_ (stream (body l s))) →
  ∀ n l s,
    status (repeat_times n body l s) = None →
    current_index_ s + N.of_nat n * m
      ≤ current_index_ (stream (repeat_times n body l s)).
Proof.
  intros Hm. induction n as [|n IH]; intros l s Hok.
  - cbn. lia.
  - cbn [repeat_times] in *. pose proof (Hm l s) as Hel.
    destruct (status (body l s)) eqn:Hst; [congruence|].
    specialize (Hel eq_refl). specialize (IH _ _ Hok).
    rewrite Nat2N.inj_succ, N.mul_succ_l. lia.
Qed.

Lemma repeat_times_raises {L} (body : L → ScaleDecoderStream → Reply L) P :
  (∀ l s e, status (body l s) = Some e → P e) →
  ∀ n l s e, status (repeat_times n body l s) = Some e → P e.
Proof.
  intros HP. induction n as [|n IH]; intros l s e Hfail;
    cbn [repeat_times] in *; [discriminate|].
  destruct (status (body l s)) eqn:Hel.
  - apply (HP l s). congruence.
  - by apply (IH _ _ _ Hfail).
Qed.

(** No stream within its span lies [n] elements of [m] bytes past [s1] when
    [n] exceeds what remains at [s1]. *)
Lemma over_budget s1 s2 m n :
  advances s1 s2 → in_bounds s1 → 1 ≤ m →
  remaining s1 / m < n →
  ¬ current_index_ s1 + n * m ≤ current_index_ s2.
Proof.
  intros (Hspan & _ & Hb) Hb1 Hm Hover Hfar.
  specialize (Hb Hb1). unfold in_bounds, remaining in *. rewrite Hspan in Hb.
  assert (n ≤ (N.of_nat (length (span_ s1)) - current_index_ s1) / m) as Hle.
  { apply N.div_le_lower_bound; lia. }
  lia.
Qed.

Lemma consumes_bool : consumes_at_least 1 decodable_bool.
Proof.
  intros v s. destruct (peek s) as [b|] eqn:Hb.
  - rewrite (extract_bool_peek v s b Hb).
    destruct (Byte.to_N b) as [|[p|p|]]; cbn; intros; lia.
  - cbn. unfold assign, decodeBool, bind. rewrite (nextByte_end s Hb). discriminate.
Qed.

Lemma raises_bool :
  raises_only (λ e, e = NOT_ENOUGH_DATA ∨ e = UNEXPECTED_VALUE) decodable_bool.
Proof.
  intros v s e. destruct (peek s) as [b|] eqn:Hb.
  - rewrite (extract_bool_peek v s b Hb).
    destruct (Byte.to_N b) as [|[p|p|]]; cbn; intros; simplify_eq; auto.
  - cbn. unfold assign, decodeBool, bind. rewrite (nextByte_end s Hb). cbn.
    intros; simplify_eq; auto.
Qed.

Lemma element_bool :
  element_of_size 1 (λ e, e = NOT_ENOUGH_DATA ∨ e = UNEXPECTED_VALUE) decodable_bool.
Proof.
  split; [apply Forward_bool|]. split; [apply consumes_bool | apply raises_bool].
Qed.

Lemma element_uint8_t :
  element_of_size 1 (λ e, e = NOT_ENOUGH_DATA) decodable_uint8_t.
Proof.
  split; [apply Forward_uint8_t|]. split; intros v s; destruct (peek s) as [b|] eqn:Hb;
    cbn; unfold assign;
    rewrite ?(nextByte_peek s b Hb), ?(nextByte_end s Hb); cbn;
    intros; simplify_eq; auto; lia.
Qed.

Lemma element_pair F S (dF : Decodable F) (dS : Decodable S) mF mS P :
  element_of_size mF P dF → element_of_size mS P dS →
  element_of_size (mF + mS) P (@decodable_pair F S dF dS).
Proof.
  intros (HfF & HcF & HrF) (HfS & HcS & HrS).
  split; [by apply Forward_pair|]. split.
  - intros p s. cbn. unfold extract_pair.
    pose proof (HcF p.1 s) as H1.
    destruct (status (extract p.1 s)); cbn; [discriminate|].
    intros H2. specialize (HcS _ _ H2). specialize (H1 eq_refl). lia.
  - intros p s e. cbn. unfold extract_pair.
    destruct (status (extract p.1 s)) eqn:H1; cbn.
    + intros; simplify_eq. by apply (HrF p.1 s).
    + apply HrS.
Qed.

(** ** Fixed arrays *)

Lemma extract_elements_success T (d : Decodable T) size (a : vec T size) :
  ∀ s, status (extract_elements a s) = None →
       decoded_in_order d s (vec_to_list a)
         (vec_to_list (dest (extract_elements a s)))
         (stream (extract_elements a s)).
Proof.
  induction a as [|el size rest IH]; intros s Hok; cbn in *.
  - constructor.
  - destruct (status (extract el s)) eqn:Hel; [discriminate|]. cbn in *.
    constructor; [done|]. by apply IH.
Qed.

Lemma extract_elements_failure T (d : Decodable T) size (a : vec T size) :
  ∀ s e, status (extract_elements a s) = Some e →
    ∃ (k : nat) (x : T) (done : list T) (s_k : ScaleDecoderStream),
      vec_to_list a !! k = Some x ∧
      decoded_in_order d s (take k (vec_to_list a)) done s_k ∧
      status (extract x s_k) = Some e ∧
      stream (extract_elements a s) = stream (extract x s_k) ∧
      vec_to_list (dest (extract_elements a s)) =
        done ++ dest (extract x s_k) :: drop (S k) (vec_to_list a).
Proof.
  induction a as [|el size rest IH]; intros s e Hfail; cbn in *; [discriminate|].
  destruct (status (extract el s)) eqn:Hel; cbn in *.
  - injection Hfail as ->. exists O, el, [], s. cbn.
    rewrite Hel, drop_0. repeat split. constructor.
  - destruct (IH _ _ Hfail) as (k & x & done & s_k & Hx & Hdone & Hst & Hs & Hd).
    exists (S k), x, (dest (extract el s) :: done), s_k. cbn.
    rewrite Hs, Hd. repeat split; [done| |done].
    by constructor.
Qed.

Lemma hasMore_mul_succ size w s :
  hasMore (N.of_nat (S size) * w) s =
    hasMore w s && hasMore (N.of_nat size * w) (advance w s).
Proof.
  unfold hasMore. cbn [advance span_ current_index_].
  rewrite Nat2N.inj_succ, N.mul_succ_l.
  apply eq_true_iff_eq. rewrite andb_true_iff, !N.leb_le. lia.
Qed.

Lemma extract_elements_fixed_width T (d : Decodable T) w :
  fixed_width w d →
  ∀ size (a : vec T size) s,
    in_bounds s →
    if hasMore (N.of_nat size * w) s
    then status (extract_elements a s) = None ∧
         stream (extract_elements a s) = advance (N.of_nat size * w) s
    else status (extract_elements a s) = Some NOT_ENOUGH_DATA.
Proof.
  intros Hw size a. induction a as [|el size rest IH]; intros s Hb.
  - assert (hasMore (N.of_nat 0 * w) s = true) as ->.
    { apply N.leb_le. unfold in_bounds in Hb. lia. }
    split; [done|]. destruct s as [bytes i]. unfold advance. cbn. f_equal. lia.
  - rewrite hasMore_mul_succ. cbn [extract_elements].
    specialize (Hw el s). cbv zeta in Hw.
    destruct (hasMore w s) eqn:Hm; cbn [andb].
    + destruct Hw as [Hok Hs]. rewrite Hok, Hs. cbn [status stream].
      specialize (IH (advance w s)).
      destruct (advances_advance w s Hm) as (_ & _ & Hb').
      specialize (IH (Hb' Hb)).
      destruct (hasMore (N.of_nat size * w) (advance w s)); [|done].
      destruct IH as [IHok IHs]. split; [done|]. rewrite IHs.
      unfold advance. cbn [span_ current_index_].
      rewrite Nat2N.inj_succ, N.mul_succ_l. f_equal. lia.
    + by rewrite Hw.
Qed.

Lemma fixed_width_uint8_t : fixed_width 1 decodable_uint8_t.
Proof.
  intros v s. cbn. unfold assign.
  destruct (hasMore 1 s) eqn:Hm.
  - destruct (hasMore_1_peek s Hm) as [b Hb]. by rewrite (nextByte_peek s b Hb).
  - unfold nextByte. by rewrite Hm.
Qed.

Lemma extract_elements_consumes T (d : Decodable T) m :
  consumes_at_least m d →
  ∀ size (a : vec T size) s,
    status (extract_elements a s) = None →
    current_index_ s + N.of_nat size * m
      ≤ current_index_ (stream (extract_elements a s)).
Proof.
  intros Hm size a. induction a as [|el size rest IH]; intros s Hok.
  - cbn. lia.
  - cbn [extract_elements] in *. pose proof (Hm el s) as Hel.
    destruct (status (extract el s)); [discriminate|]. cbn [status stream] in *.
    specialize (Hel eq_refl). specialize (IH _ Hok).
    rewrite Nat2N.inj_succ, N.mul_succ_l. lia.
Qed.

Lemma extract_elements_raises T (d : Decodable T) P :
  raises_only P d →
  ∀ size (a : vec T size) s e, status (extract_elements a s) = Some e → P e.
Proof.
  intros HP size a. induction a as [|el size rest IH]; intros s e Hfail;
    cbn [extract_elements] in *; [discriminate|].
  destruct (status (extract el s)) eqn:Hel; cbn [status] in *.
  - injection Hfail as ->. by apply (HP el s).
  - by apply (IH _ _ Hfail).
Qed.

Lemma in_bounds_of bytes : in_bounds (ScaleDecoderStream_of bytes).
Proof. unfold in_bounds. cbn. lia. Qed.

(** C7 (amended). Decoding a fixed array reads no length prefix: the
    [size] elements are decoded in index order from the cursor on, each
    from where the one before stopped.  It stops at the first element that
    fails, with that element's error, the later elements untouched.  If the
    input holds fewer bytes than the [size] elements require, each taking
    at least [m ≥ 1] bytes, decoding fails, with an error of the elements;
    for elements of a fixed width [w] that decode whenever [w] bytes
    remain, that error is [NOT_ENOUGH_DATA], and all [size] elements decode
    from exactly [size * w] bytes if that many remain. *)
Theorem array_decode {T : Type} (d : Decodable T) {size : nat}
    (a : vec T size) (s : ScaleDecoderStream) :
  let r := extract_array a s in
  (status r = None →
     decoded_in_order d s (vec_to_list a) (vec_to_list (dest r)) (stream r)) ∧
  (∀ e, status r = Some e →
     ∃ (k : nat) (x : T) (done : list T) (s_k : ScaleDecoderStream),
       vec_to_list a !! k = Some x ∧
       decoded_in_order d s (take k (vec_to_list a)) done s_k ∧
       status (extract x s_k) = Some e ∧
       stream r = stream (extract x s_k) ∧
       vec_to_list (dest r) =
         done ++ dest (extract x s_k) :: drop (S k) (vec_to_list a)) ∧
  (∀ m P, 1 ≤ m → element_of_size m P d → in_bounds s →
     remaining s < N.of_nat size * m →
     ∃ e, status r = Some e ∧ P e) ∧
  (∀ w, fixed_width w d → in_bounds s →
     if hasMore (N.of_nat size * w) s
     then status r = None ∧ stream r = advance (N.of_nat size * w) s
     else status r = Some NOT_ENOUGH_DATA).
Proof.
  cbv zeta. unfold extract_array. split; [|split; [|split]].
  - apply extract_elements_success.
  - apply extract_elements_failure.
  - intros m P Hm (Hf & Hc & Hr) Hb Hshort.
    destruct (status (extract_elements a s)) as [e|] eqn:Hst.
    + exists e. split; [done|]. by apply (extract_elements_raises T d P Hr size a s).
    + exfalso.
      apply (extract_elements_consumes T d m Hc) in Hst.
      eapply (over_budget s _ m (N.of_nat size));
        [by apply extract_elements_forward | exact Hb | exact Hm | | exact Hst].
      apply N.Div0.div_lt_upper_bound. lia.
  - intros w Hw Hb. by apply extract_elements_fixed_width.
Qed.

Lemma array_decode_witness :
  let a : vec byte 3 := [# x00; x00; x00] in
  (let r := extract_array a (ScaleDecoderStream_of [x0a; x0b; x0c; x0d]) in
   status r = None ∧ stream r = mkStream [x0a; x0b; x0c; x0d] 3 ∧
   decoded_in_order decodable_uint8_t (ScaleDecoderStream_of [x0a; x0b; x0c; x0d])
     [x00; x00; x00] [x0a; x0b; x0c] (mkStream [x0a; x0b; x0c; x0d] 3)) ∧
  (let r := extract_array a (ScaleDecoderStream_of [x0a; x0b]) in
   status r = Some NOT_ENOUGH_DATA) ∧
  (let r := extract_array (T := bool) [# false; false] (ScaleDecoderStream_of [x05]) in
   ∃ e, status r = Some e ∧ (e = NOT_ENOUGH_DATA ∨ e = UNEXPECTED_VALUE)).
Proof.
  intros a. split; [|split].
  - destruct (array_decode decodable_uint8_t a (ScaleDecoderStream_of [x0a; x0b; x0c; x0d]))
      as (Hok & _ & _ & Hw).
    specialize (Hw 1 fixed_width_uint8_t (in_bounds_of _)). cbn in Hw.
    destruct Hw as [Hst Hs].
    split; [exact Hst|]. split; [exact Hs|]. exact (Hok Hst).
  - destruct (array_decode decodable_uint8_t a (ScaleDecoderStream_of [x0a; x0b]))
      as (_ & _ & _ & Hw).
    exact (Hw 1 fixed_width_uint8_t (in_bounds_of _)).
  - destruct (array_decode decodable_bool (size := 2) [# false; false]
                (ScaleDecoderStream_of [x05])) as (_ & _ & Hshort & _).
    apply (Hshort 1 (λ e, e = decode_error NOT_ENOUGH_DATA ∨
                          e = decode_error UNEXPECTED_VALUE)).
    + lia.
    + exact element_bool.
    + apply in_bounds_of.
    + reflexivity.
Defined.

(** The claim C7 as it is worded fails for an array of two booleans on the
    single byte 05: the input is shorter than the two bytes the elements
    need, and the decode fails with the first element's [UNEXPECTED_VALUE]. *)
Lemma array_short_input_counterexample :
  let s := ScaleDecoderStream_of [x05] in
  let r := extract_array (T := bool) [# false; false] s in
  remaining s < 2 ∧
  status r = Some UNEXPECTED_VALUE ∧
  status r ≠ Some NOT_ENOUGH_DATA.
Proof. split; [reflexivity|]. split; [reflexivity | discriminate]. Qed.

(** ** Lengths that exceed the input *)

Section Budget.

Context (convert_to : CompactInteger → N)
        (bad_alloc length_error reserve_bad_alloc : N → bool).

(** C1 (amended). There is no check of the item count against the bytes
    that remain.  Once the length has been decoded, [decodeVectorLike]
    (vector, deque) resizes its local container to the item count before it
    reads any element: if that [resize] throws [bad_alloc], the decode
    fails with [TOO_MANY_ITEMS], and if it throws [length_error], that
    exception leaves the decode, in both cases with the cursor right after
    the length, whatever remains; otherwise the elements are decoded into
    a container that holds the item count of elements already, and with an
    item count above [remaining / m] for elements of at least [m ≥ 1] bytes
    each the decode fails with an error of its elements.  The decode of a
    map or of a [vector<bool>] with such an item count fails with an error
    of its elements. *)
Theorem oversized_length_fails
    {T : Type} (dT : Decodable T)
    {K : Type} `{Countable K} {V : Type} (dK : Decodable K) (dV : Decodable V)
    (m mp : N) (P : Exception → Prop)
    (v : list T) (vb : list bool) (c : gmap K V) (s : ScaleDecoderStream) :
  in_bounds s →
  1 ≤ m → element_of_size m P dT →
  1 ≤ mp → element_of_size mp P (@decodable_pair K V dK dV) →
  let size := extract (T := CompactInteger) 0 s in
  let item_count := convert_to (dest size) in
  let r := decodeVectorLike convert_to bad_alloc length_error v s in
  status size = None →
  (bad_alloc item_count = true →
     status r = Some (decode_error TOO_MANY_ITEMS) ∧ stream r = stream size) ∧
  (bad_alloc item_count = false → length_error item_count = true →
     status r = Some std_length_error ∧ stream r = stream size) ∧
  (bad_alloc item_count = false → length_error item_count = false →
     (∃ container : list T,
        N.of_nat (length container) = item_count ∧
        status r = status (extract_items container (stream size)) ∧
        stream r = stream (extract_items container (stream size))) ∧
     (remaining (stream size) / m < item_count →
        ∃ e, status r = Some e ∧ P e)) ∧
  (remaining (stream size) / mp < item_count →
     ∃ e, status (extract_map convert_to c s) = Some e ∧ P e) ∧
  (remaining (stream size) / 1 < item_count →
     ∃ e, status (extract_vector_bool convert_to vb s) = Some e ∧
          (e = NOT_ENOUGH_DATA ∨ e = UNEXPECTED_VALUE)).
Proof.
  intros Hb Hm (HfT & HcT & HrT) Hmp (Hfp & Hcp & Hrp) size item_count r Hsize.
  destruct (Forward_CompactInteger 0 s) as (_ & _ & Hb1). specialize (Hb1 Hb).
  fold size in Hb1.
  assert (∀ b l, bad_alloc item_count = b → length_error item_count = l →
            r = if b then reply v (Some (decode_error TOO_MANY_ITEMS)) (stream size)
                else if l then reply v (Some std_length_error) (stream size)
                else let items := extract_items
                                    (replicate (N.to_nat item_count) construct)
                                    (stream size) in
                     match status items with
                     | Some e => reply v (Some e) (stream items)
                     | None => reply (dest items) None (stream items)
                     end) as Hr.
  { intros b l <- <-. unfold r, decodeVectorLike. fold size. by rewrite Hsize. }
  split; [|split; [|split; [|split]]].
  - intros Hbad. by rewrite (Hr _ _ Hbad eq_refl).
  - intros Hbad Hlen. by rewrite (Hr _ _ Hbad Hlen).
  - intros Hbad Hlen. rewrite (Hr _ _ Hbad Hlen). cbv zeta. split.
    + exists (replicate (N.to_nat item_count) construct).
      rewrite length_replicate, N2Nat.id. split; [done|].
      by destruct (status (extract_items _ _)).
    + intros Hover.
      destruct (status (extract_items _ _)) as [e|] eqn:Hitems.
      * exists e. split; [done|]. by apply (extract_items_raises T dT P HrT _ _ _ Hitems).
      * exfalso.
        apply (extract_items_consumes T dT m HcT) in Hitems.
        rewrite length_replicate, N2Nat.id in Hitems.
        eapply over_budget; [| exact Hb1 | exact Hm | exact Hover | exact Hitems].
        by apply extract_items_forward.
  - intros Hover. unfold extract_map. fold size. rewrite Hsize. fold item_count.
    match goal with
    | |- context [repeat_times ?n ?body ?l ?s1] =>
      destruct (status (repeat_times n body l s1)) as [e|] eqn:Hloop
    end.
    + exists e. split; [done|].
      eapply (repeat_times_raises _ P) in Hloop; [done|].
      intros [container p] s' e'. pose proof (Hrp p s' e') as Hp.
      destruct (status (extract p s')); cbn; [|discriminate].
      intros; simplify_eq. by apply Hp.
    + exfalso.
      eapply (repeat_times_consumes _ mp) in Hloop.
      * rewrite N2Nat.id in Hloop.
        eapply over_budget; [| exact Hb1 | exact Hmp | exact Hover | exact Hloop].
        apply repeat_times_forward. intros [container p] s'.
        pose proof (Hfp p s') as Hp. by destruct (status (extract p s')).
      * intros [container p] s'. pose proof (Hcp p s') as Hp.
        destruct (status (extract p s')); cbn; [discriminate|]. auto.
  - intros Hover. unfold extract_vector_bool. fold size. rewrite Hsize. fold item_count.
    match goal with
    | |- context [repeat_times ?n ?body ?l ?s1] =>
      destruct (status (repeat_times n body l s1)) as [e|] eqn:Hloop
    end.
    + exists e. split; [done|].
      eapply (repeat_times_raises _ (λ e, e = NOT_ENOUGH_DATA ∨ e = UNEXPECTED_VALUE))
        in Hloop; [done|].
      intros [container el] s' e'. pose proof (raises_bool el s' e') as Hp.
      destruct (status (extract el s')); cbn; [|discriminate].
      intros; simplify_eq. by apply Hp.
    + exfalso.
      eapply (repeat_times_consumes _ 1) in Hloop.
      * rewrite N2Nat.id in Hloop.
        eapply over_budget; [| exact Hb1 | | exact Hover | exact Hloop]; [|lia].
        apply repeat_times_forward. intros [container el] s'.
        pose proof (Forward_bool el s') as Hp. by destruct (status (extract el s')).
      * intros [container el] s'. pose proof (consumes_bool el s') as Hp.
        destruct (status (extract el s')); cbn; [discriminate|]. auto.
Qed.

End Budget.

Lemma oversized_length_fails_witness :
  let few := ScaleDecoderStream_of [x0c; x01; x02] in
  let many := ScaleDecoderStream_of [x07; x00; x00; x00; x00; x02; x01] in
  let huge := ScaleDecoderStream_of
                [x13; x00; x00; x00; x00; x00; x00; x00; x80; x01] in
  let decode := decodeVectorLike convert_to_size_t bad_alloc_above_2_32
                  length_error_above_2_62 (T := byte) [] in
  (∃ e, status (decode few) = Some e ∧ e = NOT_ENOUGH_DATA) ∧
  (∃ e, status (extract_map convert_to_size_t (∅ : gmap byte byte) few) = Some e ∧
        e = NOT_ENOUGH_DATA) ∧
  (status (decode many) = Some (decode_error TOO_MANY_ITEMS) ∧
   current_index_ (stream (decode many)) = 6) ∧
  (status (decode huge) = Some std_length_error ∧
   current_index_ (stream (decode huge)) = 9).
Proof.
  intros few many huge decode.
  pose proof (λ s, oversized_length_fails convert_to_size_t bad_alloc_above_2_32
                length_error_above_2_62
                decodable_uint8_t decodable_uint8_t decodable_uint8_t
                1 2 (λ e, e = decode_error NOT_ENOUGH_DATA)
                [] [] (∅ : gmap byte byte) (ScaleDecoderStream_of s)
                (in_bounds_of s) ltac:(lia) element_uint8_t ltac:(lia)
                (element_pair byte byte _ _ 1 1 _ element_uint8_t element_uint8_t))
    as Hdecode.
  split; [|split; [|split]].
  - destruct (Hdecode [x0c; x01; x02] eq_refl) as (_ & _ & Hv & _).
    destruct Hv as [_ Hv]; [reflexivity | reflexivity |]. apply Hv. reflexivity.
  - destruct (Hdecode [x0c; x01; x02] eq_refl) as (_ & _ & _ & Hm & _).
    apply Hm. reflexivity.
  - destruct (Hdecode [x07; x00; x00; x00; x00; x02; x01] eq_refl) as (Hbad & _).
    destruct Hbad as [Hst Hs]; [reflexivity|].
    split; [exact Hst|]. unfold decode, many. by rewrite Hs.
  - destruct (Hdecode [x13; x00; x00; x00; x00; x00; x00; x00; x80; x01] eq_refl)
      as (_ & Hlen & _).
    destruct Hlen as [Hst Hs]; [reflexivity | reflexivity |].
    split; [exact Hst|]. unfold decode, huge. by rewrite Hs.
Defined.

(** The claim C1 as it is worded fails on the single byte 08: the length is
    2, nothing remains, [resize] does not throw, and every container decode
    fails with [NOT_ENOUGH_DATA] at its first element, not with
    [TOO_MANY_ITEMS]. *)
Lemma too_many_items_counterexample :
  let s := ScaleDecoderStream_of [x08] in
  let size := extract (T := CompactInteger) 0 s in
  (status size = None ∧ dest size = 2 ∧
   remaining (stream size) / 1 < convert_to_size_t (dest size) ∧
   bad_alloc_above_2_32 (convert_to_size_t (dest size)) = false ∧
   length_error_above_2_62 (convert_to_size_t (dest size)) = false) ∧
  status (extract_vector convert_to_size_t bad_alloc_above_2_32
            length_error_above_2_62 (T := byte) [] s)
    = Some (decode_error NOT_ENOUGH_DATA) ∧
  status (extract_deque convert_to_size_t bad_alloc_above_2_32
            length_error_above_2_62 (T := byte) [] s)
    = Some (decode_error NOT_ENOUGH_DATA) ∧
  status (extract_map convert_to_size_t (∅ : gmap byte byte) s)
    = Some (decode_error NOT_ENOUGH_DATA) ∧
  status (extract_vector_bool convert_to_size_t [] s)
    = Some (decode_error NOT_ENOUGH_DATA).
Proof. vm_compute. by repeat split. Qed.

(** ** Maps *)

Lemma emplace_lookup_keeps `{Countable K} {V} (p : K * V) (m : gmap K V) k v :
  m !! k = Some v → emplace p m !! k = Some v.
Proof.
  intros Hk. unfold emplace. destruct (m !! p.1) eqn:Hp; [done|].
  rewrite lookup_insert_ne; [done|]. congruence.
Qed.

Lemma emplace_lookup_new `{Countable K} {V} (p : K * V) (m : gmap K V) :
  m !! p.1 = None → emplace p m !! p.1 = Some p.2.
Proof. intros Hp. unfold emplace. rewrite Hp. apply lookup_insert_eq. Qed.

Lemma emplace_lookup_other `{Countable K} {V} (p : K * V) (m : gmap K V) k :
  p.1 ≠ k → emplace p m !! k = m !! k.
Proof.
  intros Hne. unfold emplace. destruct (m !! p.1); [done|].
  by rewrite lookup_insert_ne.
Qed.

Lemma emplace_all_cons `{Countable K} {V} (p : K * V) ps (m : gmap K V) :
  emplace_all (p :: ps) m = emplace_all ps (emplace p m).
Proof. reflexivity. Qed.

Lemma emplace_all_keeps `{Countable K} {V} (ps : list (K * V)) :
  ∀ (m : gmap K V) k v, m !! k = Some v → emplace_all ps m !! k = Some v.
Proof.
  induction ps as [|p ps IH]; intros m k v Hk; [done|].
  rewrite emplace_all_cons. apply IH. by apply emplace_lookup_keeps.
Qed.

Lemma emplace_all_first `{Countable K} {V} (ps : list (K * V)) :
  ∀ (m : gmap K V) k v,
    m !! k = None → first_with_key ps k v → emplace_all ps m !! k = Some v.
Proof.
  induction ps as [|p ps IH]; intros m k v Hk (i & Hi & Hbefore).
  - by rewrite lookup_nil in Hi.
  - rewrite emplace_all_cons. destruct i as [|i]; cbn in Hi.
    + injection Hi as ->. apply emplace_all_keeps.
      by apply (emplace_lookup_new (k, v)).
    + assert (p.1 ≠ k) as Hne by (apply (Hbefore O p); [lia | done]).
      apply IH.
      * by rewrite emplace_lookup_other.
      * exists i. split; [done|]. intros j q Hj Hq.
        apply (Hbefore (S j) q); [lia | done].
Qed.

Lemma emplace_all_absent `{Countable K} {V} (ps : list (K * V)) :
  ∀ (m : gmap K V) k,
    m !! k = None → (∀ p, p ∈ ps → p.1 ≠ k) → emplace_all ps m !! k = None.
Proof.
  induction ps as [|p ps IH]; intros m k Hk Hout; [done|].
  rewrite emplace_all_cons. apply IH.
  - rewrite emplace_lookup_other; [done|]. apply Hout. by left.
  - intros q Hq. apply Hout. by right.
Qed.

Lemma map_loop `{Countable K} {V} (dK : Decodable K) (dV : Decodable V)
    (body : gmap K V * (K * V) → ScaleDecoderStream → Reply (gmap K V * (K * V))) :
  (∀ container p s,
     body (container, p) s =
       let r := extract (T := K * V) p s in
       match status r with
       | Some e => reply (container, dest r) (Some e) (stream r)
       | None => reply (emplace (dest r) container, dest r) None (stream r)
       end) →
  ∀ n container p s,
    status (repeat_times n body (container, p) s) = None →
    (dest (repeat_times n body (container, p) s)).1
      = emplace_all (wire_pairs n p s) container ∧
    length (wire_pairs n p s) = n.
Proof.
  intros Hbody. induction n as [|n IH]; intros container p s Hok; [done|].
  cbn [repeat_times wire_pairs] in *. rewrite Hbody in *. cbv zeta in *.
  destruct (status (extract p s)) eqn:Hp; cbn [status dest stream] in *;
    [discriminate|].
  destruct (IH _ _ _ Hok) as [Hd Hl]. rewrite Hd.
  split; [reflexivity|]. by rewrite length_cons, Hl.
Qed.

Section Maps.

Context (convert_to : CompactInteger → N).

(** C2 (amended). When a map decodes, the pairs read off the wire are as
    many as the length says, each key on the wire is bound to the value of
    the FIRST pair with that key, and no other key is bound. *)
Theorem map_decode_first_pair_wins `{Countable K} {V : Type}
    (dK : Decodable K) (dV : Decodable V)
    (c : gmap K V) (s : ScaleDecoderStream) :
  let size := extract (T := CompactInteger) 0 s in
  let item_count := N.to_nat (convert_to (dest size)) in
  let ps := wire_pairs item_count (construct (T := K * V)) (stream size) in
  let r := extract_map convert_to c s in
  status r = None →
  length ps = item_count ∧
  (∀ k v, first_with_key ps k v → dest r !! k = Some v) ∧
  (∀ k, (∀ p, p ∈ ps → p.1 ≠ k) → dest r !! k = None).
Proof.
  cbv zeta. unfold extract_map.
  destruct (status (extract (T := CompactInteger) 0 s)); [discriminate|].
  match goal with
  | |- context [repeat_times ?n ?body ?l ?s1] =>
    pose proof (map_loop dK dV body (λ _ _ _, eq_refl) n ∅ construct s1) as Hloop;
    destruct (status (repeat_times n body l s1)) eqn:Hst; [discriminate|]
  end.
  intros _. destruct (Hloop eq_refl) as [Hd Hl]. cbn [dest]. rewrite Hd.
  split; [exact Hl|]. split.
  - intros k v Hfirst. by apply emplace_all_first.
  - intros k Hout. by apply emplace_all_absent.
Qed.

End Maps.

Lemma map_decode_first_pair_wins_witness :
  let s := ScaleDecoderStream_of [x0c; x01; x0a; x02; x0b; x01; x14] in
  let r := extract_map convert_to_size_t (∅ : gmap byte byte) s in
  dest r !! x01 = Some x0a ∧ dest r !! x02 = Some x0b ∧ dest r !! x03 = None.
Proof.
  intros s r.
  destruct (map_decode_first_pair_wins convert_to_size_t
              decodable_uint8_t decodable_uint8_t ∅ s eq_refl)
    as (_ & Hfirst & Hnone).
  split; [|split].
  - apply Hfirst. exists 0%nat. split; [reflexivity|]. intros j p Hj. lia.
  - apply Hfirst. exists 1%nat. split; [reflexivity|].
    intros [|j] p Hj Hp; [|lia]. injection Hp as <-. discriminate.
  - apply Hnone. intros p Hp. vm_compute in Hp.
    repeat (apply elem_of_cons in Hp as [->|Hp]; [discriminate|]).
    by apply elem_of_nil in Hp.
Defined.

(** The claim C2 as it is worded fails on the bytes 08 01 0a 01 14: two
    pairs with the key 01, the last one with the value 14, and the decoded
    map binds 01 to 0a. *)
Lemma map_last_pair_counterexample :
  let s := ScaleDecoderStream_of [x08; x01; x0a; x01; x14] in
  let ps := wire_pairs 2 (construct (T := byte * byte)) (mkStream [x08; x01; x0a; x01; x14] 1) in
  let r := extract_map convert_to_size_t (∅ : gmap byte byte) s in
  status r = None ∧
  ps = [(x01, x0a); (x01, x14)] ∧
  last_with_key ps x01 x14 ∧
  dest r !! x01 = Some x0a ∧
  dest r !! x01 ≠ Some x14.
Proof.
  split; [reflexivity|]. split; [reflexivity|]. split.
  - exists 1%nat. split; [reflexivity|].
    intros [|[|j]] p Hj Hp; [lia | lia | discriminate].
  - split; [reflexivity|]. vm_compute. discriminate.
Qed.

(** * Further properties of the decoders *)

(** ** Pairs and tuples *)

(** X1. A pair decodes as the tuple of its two members: the same members,
    the same error, the same stream afterwards, on every input. *)
Theorem pair_decodes_as_tuple {F S : Type} (dF : Decodable F) (dS : Decodable S)
    (p : F * S) (s : ScaleDecoderStream) :
  let r := extract_pair p s in
  let t := extract_tuple (Ts := [F; S]) (dF, (dS, tt)) (p.1, (p.2, tt)) s in
  dest t = ((dest r).1, ((dest r).2, tt)) ∧
  status t = status r ∧
  stream t = stream r.
Proof.
  cbv zeta. unfold extract_pair, extract_tuple. cbn.
  destruct (status (extract p.1 s)); cbn; [done|].
  by destruct (status (extract p.2 _)).
Qed.

(** ** Sequences *)

Lemma extract_items_length T (d : Decodable T) :
  ∀ container s, length (dest (extract_items container s)) = length container.
Proof.
  induction container as [|el rest IH]; intros s; cbn; [done|].
  destruct (status (extract el s)); cbn; [done|]. by rewrite IH.
Qed.

Lemma extract_elements_items T (d : Decodable T) size (a : vec T size) :
  ∀ s,
    vec_to_list (dest (extract_elements a s)) = dest (extract_items (vec_to_list a) s) ∧
    status (extract_elements a s) = status (extract_items (vec_to_list a) s) ∧
    stream (extract_elements a s) = stream (extract_items (vec_to_list a) s).
Proof.
  induction a as [|el size rest IH]; intros s; cbn; [done|].
  destruct (status (extract el s)); cbn; [done|].
  destruct (IH (stream (extract el s))) as (Hd & Hst & Hs).
  by rewrite Hd, Hst, Hs.
Qed.

Lemma assign_blind {A T} (f : Fallible A) (set : A → T) v v' s :
  status (assign f set v s) = status (assign f set v' s) ∧
  stream (assign f set v s) = stream (assign f set v' s) ∧
  (status (assign f set v s) = None →
     dest (assign f set v s) = dest (assign f set v' s)).
Proof. unfold assign. by destruct (f s) as [[a|e] s1]. Qed.

(** The loop of the list decode against the in-place traversal of a
    container of [n] fresh elements. *)
Lemma list_loop_items T (d : Decodable T)
    (body : list T → ScaleDecoderStream → Reply (list T)) :
  (∀ lst s,
     body lst s =
       let r := extract (construct (T := T)) s in
       reply (lst ++ [dest r]) (status r) (stream r)) →
  ∀ n lst s,
    status (repeat_times n body lst s)
      = status (extract_items (replicate n (construct (T := T))) s) ∧
    stream (repeat_times n body lst s)
      = stream (extract_items (replicate n (construct (T := T))) s) ∧
    (status (extract_items (replicate n (construct (T := T))) s) = None →
       dest (repeat_times n body lst s)
         = lst ++ dest (extract_items (replicate n (construct (T := T))) s)).
Proof.
  intros Hbody. induction n as [|n IH]; intros lst s.
  - cbn. by rewrite app_nil_r.
  - cbn [repeat_times replicate extract_items]. rewrite Hbody. cbv zeta.
    cbn [status dest stream].
    destruct (status (extract construct s)) eqn:Hel; cbn [status dest stream].
    + done.
    + destruct (IH (lst ++ [dest (extract construct s)]) (stream (extract construct s)))
        as (Hst & Hs & Hd).
      split; [exact Hst|]. split; [exact Hs|].
      intros Hok. rewrite (Hd Hok), <- app_assoc. reflexivity.
Qed.

(** The loop of the [vector<bool>] decode against the same traversal. *)
Lemma vector_bool_loop_items
    (body : list bool * bool → ScaleDecoderStream → Reply (list bool * bool)) :
  (∀ container el s,
     body (container, el) s =
       let r := extract (T := bool) el s in
       match status r with
       | Some e => reply (container, dest r) (Some e) (stream r)
       | None => reply (container ++ [dest r], dest r) None (stream r)
       end) →
  ∀ n container el s,
    status (repeat_times n body (container, el) s)
      = status (extract_items (T := bool) (replicate n false) s) ∧
    stream (repeat_times n body (container, el) s)
      = stream (extract_items (T := bool) (replicate n false) s) ∧
    (status (extract_items (T := bool) (replicate n false) s) = None →
       (dest (repeat_times n body (container, el) s)).1
         = container ++ dest (extract_items (T := bool) (replicate n false) s)).
Proof.
  intros Hbody. induction n as [|n IH]; intros container el s.
  - cbn. by rewrite app_nil_r.
  - cbn [repeat_times replicate extract_items]. rewrite Hbody. cbv zeta.
    destruct (assign_blind decodeBool id el false s) as (Hst & Hs & Hd).
    change (assign decodeBool id el s) with (extract (T := bool) el s) in *.
    change (assign decodeBool id false s) with (extract (T := bool) false s) in *.
    rewrite <- Hst, <- Hs.
    destruct (status (extract el s)) eqn:Hel; cbn [status dest stream].
    + done.
    + rewrite <- (Hd eq_refl).
      destruct (IH (container ++ [dest (extract el s)]) (dest (extract el s))
                   (stream (extract el s))) as (IHst & IHs & IHd).
      split; [exact IHst|]. split; [exact IHs|].
      intros Hok. rewrite (IHd Hok), <- app_assoc. reflexivity.
Qed.

Section Sequences.

Context (convert_to : CompactInteger → N)
        (bad_alloc length_error reserve_bad_alloc : N → bool).

(** X2. A vector is its length followed by an array of that length: once
    the length is read and [resize] does not throw, the decode returns or
    raises as the decode of a fresh array of that many elements from the
    same position does, leaves the stream where that leaves it, and on
    success holds the elements of that array. *)
Theorem vector_is_prefixed_array {T : Type} (d : Decodable T)
    (v : list T) (s : ScaleDecoderStream) :
  let size := extract (T := CompactInteger) 0 s in
  let item_count := N.to_nat (convert_to (dest size)) in
  let a := extract_array (vreplicate item_count (construct (T := T))) (stream size) in
  let r := decodeVectorLike convert_to bad_alloc length_error v s in
  status size = None →
  bad_alloc (convert_to (dest size)) = false →
  length_error (convert_to (dest size)) = false →
  status r = status a ∧
  stream r = stream a ∧
  (status a = None → dest r = vec_to_list (dest a)).
Proof.
  cbv zeta. intros Hsize Halloc Hlength.
  unfold decodeVectorLike, extract_array. rewrite Hsize, Halloc, Hlength.
  destruct (extract_elements_items T d _
              (vreplicate (N.to_nat (convert_to (dest (extract (T := CompactInteger) 0 s))))
                          construct)
              (stream (extract (T := CompactInteger) 0 s))) as (Hd & Hst & Hs).
  rewrite vec_to_list_replicate in Hd, Hst, Hs. rewrite Hd, Hst, Hs.
  by destruct (status (extract_items _ _)).
Qed.

(** X4. When the [resize] of the generic path does not throw, neither
    [bad_alloc] nor [length_error], [vector<bool>] decodes as any other
    sequence of booleans (a [deque<bool>]) does: the same reply on every
    input. *)
Theorem vector_bool_decodes_as_deque (vb : list bool) (s : ScaleDecoderStream) :
  let size := extract (T := CompactInteger) 0 s in
  (status size = None → bad_alloc (convert_to (dest size)) = false) →
  (status size = None → length_error (convert_to (dest size)) = false) →
  extract_vector_bool convert_to vb s
    = extract_deque convert_to bad_alloc length_error (T := bool) vb s.
Proof.
  cbv zeta. intros Halloc Hlength.
  unfold extract_vector_bool, extract_deque, decodeVectorLike.
  destruct (status (extract (T := CompactInteger) 0 s)); [done|].
  rewrite (Halloc eq_refl), (Hlength eq_refl).
  match goal with
  | |- context [repeat_times ?n ?body ?l ?s1] =>
    destruct (vector_bool_loop_items body (λ _ _ _, eq_refl) n [] false s1)
      as (Hst & Hs & Hd)
  end.
  rewrite Hst, Hs.
  destruct (status (extract_items _ _)); [done|]. by rewrite (Hd eq_refl).
Qed.

(** X5. A sequence that decodes holds exactly as many elements as its
    length prefix says. *)
Theorem decoded_length_is_item_count {T : Type} (d : Decodable T)
    (v : list T) (vb : list bool) (s : ScaleDecoderStream) :
  let item_count := N.to_nat (convert_to (dest (extract (T := CompactInteger) 0 s))) in
  (status (decodeVectorLike convert_to bad_alloc length_error v s) = None →
     length (dest (decodeVectorLike convert_to bad_alloc length_error v s)) = item_count) ∧
  (status (extract_list convert_to reserve_bad_alloc v s) = None →
     length (dest (extract_list convert_to reserve_bad_alloc v s)) = item_count) ∧
  (status (extract_vector_bool convert_to vb s) = None →
     length (dest (extract_vector_bool convert_to vb s)) = item_count).
Proof.
  cbv zeta. unfold decodeVectorLike, extract_list, extract_vector_bool.
  destruct (status (extract (T := CompactInteger) 0 s)); [done|].
  split; [|split].
  - destruct (bad_alloc _); [done|]. destruct (length_error _); [done|].
    destruct (status (extract_items _ _)) eqn:Hi; [done|]. intros _. cbn.
    by rewrite extract_items_length, length_replicate.
  - destruct (reserve_bad_alloc _); [done|].
    match goal with
    | |- context [repeat_times ?n ?body ?l ?s1] =>
      destruct (list_loop_items T d body (λ _ _, eq_refl) n l s1) as (Hst & Hs & Hd)
    end.
    rewrite Hst. destruct (status (extract_items _ _)) eqn:Hi; [done|].
    intros _. cbn [dest]. rewrite (Hd eq_refl). cbn [app].
    by rewrite extract_items_length, length_replicate.
  - match goal with
    | |- context [repeat_times ?n ?body ?l ?s1] =>
      destruct (vector_bool_loop_items body (λ _ _ _, eq_refl) n [] false s1)
        as (Hst & Hs & Hd)
    end.
    rewrite Hst. destruct (status (extract_items _ _)) eqn:Hi; [done|].
    intros _. cbn [dest]. rewrite (Hd eq_refl). cbn [app].
    by rewrite extract_items_length, length_replicate.
Qed.

End Sequences.

Lemma vector_is_prefixed_array_witness :
  let s := ScaleDecoderStream_of [x08; x2a; x2b; x2c] in
  let a := extract_array (T := byte) [# x00; x00] (mkStream [x08; x2a; x2b; x2c] 1) in
  let r := decodeVectorLike convert_to_size_t bad_alloc_above_2_32
             length_error_above_2_62 (T := byte) [x01] s in
  status r = status a ∧ stream r = stream a ∧
  (status a = None → dest r = vec_to_list (dest a)).
Proof.
  apply (vector_is_prefixed_array convert_to_size_t bad_alloc_above_2_32
           length_error_above_2_62 decodable_uint8_t [x01]
           (ScaleDecoderStream_of [x08; x2a; x2b; x2c]));
    reflexivity.
Defined.

Lemma vector_bool_decodes_as_deque_witness :
  extract_vector_bool convert_to_size_t [] (ScaleDecoderStream_of [x08; x01; x00])
    = extract_deque convert_to_size_t bad_alloc_above_2_32
        length_error_above_2_62 (T := bool) []
        (ScaleDecoderStream_of [x08; x01; x00]).
Proof.
  apply (vector_bool_decodes_as_deque convert_to_size_t bad_alloc_above_2_32
           length_error_above_2_62 [] (ScaleDecoderStream_of [x08; x01; x00]));
    reflexivity.
Defined.

Lemma decoded_length_is_item_count_witness :
  length (dest (decodeVectorLike convert_to_size_t bad_alloc_above_2_32
                  length_error_above_2_62 (T := option byte) []
                  (ScaleDecoderStream_of [x0c; x00; x01; x2a; x00; xff]))) = 3%nat ∧
  length (dest (extract_vector_bool convert_to_size_t []
                  (ScaleDecoderStream_of [x08; x01; x00; xff]))) = 2%nat.
Proof.
  split.
  - destruct (decoded_length_is_item_count convert_to_size_t bad_alloc_above_2_32
                length_error_above_2_62 bad_alloc_above_2_32
                (decodable_optional (T := byte)) [] []
                (ScaleDecoderStream_of [x0c; x00; x01; x2a; x00; xff]))
      as (Hv & _ & _).
    apply Hv. reflexivity.
  - destruct (decoded_length_is_item_count convert_to_size_t bad_alloc_above_2_32
                length_error_above_2_62 bad_alloc_above_2_32
                decodable_uint8_t [] []
                (ScaleDecoderStream_of [x08; x01; x00; xff]))
      as (_ & _ & Hb).
    apply Hb. reflexivity.
Defined.

(** ** Maps: how many keys *)

Lemma emplace_size `{Countable K} {V} (p : K * V) (m : gmap K V) :
  size (emplace p m) = if m !! p.1 is Some _ then size m else S (size m).
Proof.
  unfold emplace. destruct (m !! p.1) eqn:Hp; [done|].
  by apply map_size_insert_None.
Qed.

Lemma emplace_all_size_le `{Countable K} {V} (ps : list (K * V)) :
  ∀ m : gmap K V, (size (emplace_all ps m) ≤ size m + length ps)%nat.
Proof.
  induction ps as [|p ps IH]; intros m; [cbn; lia|].
  rewrite emplace_all_cons. specialize (IH (emplace p m)).
  rewrite emplace_size in IH. cbn [length]. destruct (m !! p.1); lia.
Qed.

Lemma emplace_all_bound `{Countable K} {V} (ps : list (K * V)) :
  ∀ (m : gmap K V) k,
    is_Some (emplace_all ps m !! k) ↔ is_Some (m !! k) ∨ k ∈ ps.*1.
Proof.
  induction ps as [|p ps IH]; intros m k.
  - cbn. rewrite elem_of_nil. tauto.
  - rewrite emplace_all_cons, IH, fmap_cons, elem_of_cons.
    destruct (decide (p.1 = k)) as [<-|Hne].
    + split; [tauto|]. intros _. left.
      destruct (m !! p.1) eqn:Hp.
      * exists v. by apply emplace_lookup_keeps.
      * exists p.2. by apply emplace_lookup_new.
    + rewrite emplace_lookup_other by done. split; [tauto|].
      intros [Hm|[Heq|Hk]]; [by left | done | by right].
Qed.

Lemma emplace_all_size_full `{Countable K} {V} (ps : list (K * V)) :
  ∀ m : gmap K V,
    size (emplace_all ps m) = (size m + length ps)%nat ↔
    NoDup ps.*1 ∧ ∀ k, k ∈ ps.*1 → m !! k = None.
Proof.
  induction ps as [|p ps IH]; intros m.
  - cbn. split; [|lia]. intros _. split; [constructor|]. intros k Hk.
    by apply elem_of_nil in Hk.
  - rewrite emplace_all_cons, fmap_cons, NoDup_cons. cbn [length].
    pose proof (emplace_all_size_le ps (emplace p m)) as Hle.
    rewrite emplace_size in Hle. specialize (IH (emplace p m)).
    rewrite emplace_size in IH.
    destruct (m !! p.1) as [w|] eqn:Hp.
    + split; [lia|]. intros (_ & Hfree).
      specialize (Hfree p.1 (list_elem_of_here _ _)). congruence.
    + replace (S (size m) + length ps)%nat with (size m + S (length ps))%nat in IH by lia.
      rewrite IH. split.
      * intros (Hnd & Hfree). split; [split; [|done]|].
        -- intros Hin. specialize (Hfree _ Hin).
           by rewrite (emplace_lookup_new p m Hp) in Hfree.
        -- intros k [->|Hk]%elem_of_cons; [done|].
           specialize (Hfree k Hk).
           destruct (decide (p.1 = k)) as [<-|Hne];
             [by rewrite (emplace_lookup_new p m Hp) in Hfree|].
           by rewrite emplace_lookup_other in Hfree.
      * intros ((Hnotin & Hnd) & Hfree). split; [done|]. intros k Hk.
        assert (p.1 ≠ k) as Hne by (intros <-; done).
        rewrite emplace_lookup_other by done. apply Hfree. by right.
Qed.

Section MapSize.

Context (convert_to : CompactInteger → N).

(** X6. A map that decodes has at most as many entries as its length
    prefix says, exactly that many if and only if the keys on the wire are
    pairwise different, and its keys are the keys on the wire. *)
Theorem map_size_counts_distinct_keys `{Countable K} {V : Type}
    (dK : Decodable K) (dV : Decodable V)
    (c : gmap K V) (s : ScaleDecoderStream) :
  let size_ := extract (T := CompactInteger) 0 s in
  let item_count := N.to_nat (convert_to (dest size_)) in
  let ps := wire_pairs item_count (construct (T := K * V)) (stream size_) in
  let r := extract_map convert_to c s in
  status r = None →
  (size (dest r) ≤ item_count)%nat ∧
  (size (dest r) = item_count ↔ NoDup ps.*1) ∧
  (∀ k, is_Some (dest r !! k) ↔ k ∈ ps.*1).
Proof.
  cbv zeta. unfold extract_map.
  destruct (status (extract (T := CompactInteger) 0 s)); [discriminate|].
  match goal with
  | |- context [repeat_times ?n ?body ?l ?s1] =>
    pose proof (map_loop dK dV body (λ _ _ _, eq_refl) n ∅ construct s1) as Hloop;
    destruct (status (repeat_times n body l s1)) eqn:Hst; [discriminate|]
  end.
  intros _. destruct (Hloop eq_refl) as [Hd Hl]. cbn [dest]. rewrite Hd.
  split; [|split].
  - pose proof (emplace_all_size_le
                  (wire_pairs (N.to_nat (convert_to (dest (extract (T := CompactInteger) 0 s))))
                     construct (stream (extract (T := CompactInteger) 0 s)))
                  (∅ : gmap K V)) as Hle.
    rewrite map_size_empty, Hl in Hle. exact Hle.
  - pose proof (emplace_all_size_full
                  (wire_pairs (N.to_nat (convert_to (dest (extract (T := CompactInteger) 0 s))))
                     construct (stream (extract (T := CompactInteger) 0 s)))
                  (∅ : gmap K V)) as Hfull.
    rewrite map_size_empty, Nat.add_0_l, Hl in Hfull. rewrite Hfull.
    split; [tauto|].
    intros Hnd. split; [done|]. intros k _. apply lookup_empty.
  - intros k. rewrite emplace_all_bound, lookup_empty.
    split; [intros [[? ?]|?]; done | by right].
Qed.

End MapSize.

Lemma map_size_counts_distinct_keys_witness :
  let s := ScaleDecoderStream_of [x0c; x01; x0a; x02; x0b; x01; x14] in
  let r := extract_map convert_to_size_t (∅ : gmap byte byte) s in
  (size (dest r) ≤ 3)%nat ∧ is_Some (dest r !! x02).
Proof.
  intros s r.
  destruct (map_size_counts_distinct_keys convert_to_size_t
              decodable_uint8_t decodable_uint8_t ∅ s eq_refl)
    as (Hle & _ & Hkeys).
  split; [exact Hle|]. apply Hkeys. vm_compute. apply list_elem_of_further, list_elem_of_here.
Defined.

(** ** Sum types: the destination of a failed decode *)

Lemma tryDecodeAsOneOfVariant_failure {V} Ts :
  ∀ (alts : Decodables Ts) I (put : variant Ts → V) v i s e,
    status (tryDecodeAsOneOfVariant Ts I alts put v i s) = Some e →
    dest (tryDecodeAsOneOfVariant Ts I alts put v i s) = v.
Proof.
  induction Ts as [|T Ts IH]; intros alts I put v i s e; cbn; [done|].
  destruct (I =? i); [|apply IH].
  by destruct (status (extract _ _)).
Qed.

(** X7. When the decode of a sum fails, at the index byte, at the index
    check or inside the payload, the destination is what it was before
    the call. *)
Theorem failed_variant_decode_keeps_destination {Ts : list Type}
    (alts : Decodables Ts) (v : variant Ts) (s : ScaleDecoderStream)
    (e : Exception) :
  status (extract_variant alts v s) = Some e →
  dest (extract_variant alts v s) = v.
Proof.
  unfold extract_variant.
  destruct (status (extract (T := byte) x00 s)); [done|].
  destruct (_ <=? _); [done|]. apply tryDecodeAsOneOfVariant_failure.
Qed.

Lemma failed_variant_decode_keeps_destination_witness :
  let Ts := [byte : Type; option byte : Type] in
  let alts : Decodables Ts := (decodable_uint8_t, (decodable_optional, tt)) in
  let v : variant Ts := holds_first x2a in
  dest (extract_variant alts v (ScaleDecoderStream_of [x01; x01])) = v.
Proof.
  intros Ts alts v.
  apply (failed_variant_decode_keeps_destination alts v
           (ScaleDecoderStream_of [x01; x01]) NOT_ENOUGH_DATA).
  reflexivity.
Defined.

(** ** Bounds *)

Section Bounds.

Context (convert_to : CompactInteger → N)
        (bad_alloc length_error reserve_bad_alloc : N → bool).

(** X8. However a decoder built over [bytes] is used, its cursor stays
    within the span: no operation moves it past the end. *)
Theorem cursor_never_past_the_end (bytes : list byte) (s : ScaleDecoderStream) :
  rtc (step convert_to bad_alloc length_error reserve_bad_alloc)
      (ScaleDecoderStream_of bytes) s →
  current_index_ s ≤ N.of_nat (length (span_ s)) ∧
  remaining s ≤ N.of_nat (length bytes).
Proof.
  intros (Hspan & _ & Hb)%steps_advance. cbn in Hspan.
  specialize (Hb (in_bounds_of bytes)). unfold in_bounds, remaining in *.
  rewrite Hspan in *. lia.
Qed.

(** X9. A sequence that decodes never holds more elements than the input
    can pay for: with elements of at least [m] bytes each, the number of
    decoded elements times [m] is at most what remained before the call. *)
Theorem decoded_elements_fit_input {T : Type} (d : Decodable T) (m : N)
    (v : list T) (s : ScaleDecoderStream) :
  Forward d → consumes_at_least m d → in_bounds s →
  (status (decodeVectorLike convert_to bad_alloc length_error v s) = None →
     N.of_nat (length (dest (decodeVectorLike convert_to bad_alloc length_error v s))) * m
       ≤ remaining s) ∧
  (status (extract_list convert_to reserve_bad_alloc v s) = None →
     N.of_nat (length (dest (extract_list convert_to reserve_bad_alloc v s))) * m
       ≤ remaining s).
Proof.
  intros Hf Hm Hb.
  destruct (Forward_CompactInteger 0 s) as (Hspan1 & Hi1 & Hb1). specialize (Hb1 Hb).
  assert (∀ n,
    status (extract_items (replicate n (construct (T := T)))
              (stream (extract (T := CompactInteger) 0 s))) = None →
    N.of_nat (length (dest (extract_items (replicate n (construct (T := T)))
                              (stream (extract (T := CompactInteger) 0 s))))) * m
      ≤ remaining s) as Hitems.
  { intros n Hok. rewrite extract_items_length.
    pose proof (extract_items_consumes T d m Hm _ _ Hok) as Hfar.
    destruct (extract_items_forward T d Hf (replicate n construct)
                (stream (extract (T := CompactInteger) 0 s))) as (Hspan2 & _ & Hb2).
    specialize (Hb2 Hb1). unfold in_bounds, remaining in *.
    rewrite Hspan2, Hspan1 in Hb2. lia. }
  unfold decodeVectorLike, extract_list.
  destruct (status (extract (T := CompactInteger) 0 s)); [done|].
  split.
  - destruct (bad_alloc _); [done|]. destruct (length_error _); [done|].
    destruct (status (extract_items _ _)) eqn:Hi; [done|]. intros _. cbn [dest].
    by apply Hitems.
  - destruct (reserve_bad_alloc _); [done|].
    match goal with
    | |- context [repeat_times ?n ?body ?l ?s1] =>
      destruct (list_loop_items T d body (λ _ _, eq_refl) n l s1) as (Hst & Hs & Hd)
    end.
    rewrite Hst. destruct (status (extract_items _ _)) eqn:Hi; [done|].
    intros _. cbn [dest]. rewrite (Hd eq_refl). cbn [app]. by apply Hitems.
Qed.

End Bounds.

Lemma cursor_never_past_the_end_witness :
  let s := mkStream [x01; x07; x00] 3 in
  current_index_ s ≤ N.of_nat (length (span_ s)) ∧ remaining s ≤ 3.
Proof.
  apply (cursor_never_past_the_end convert_to_size_t bad_alloc_above_2_32
           length_error_above_2_62 bad_alloc_above_2_32
           [x01; x07; x00] (mkStream [x01; x07; x00] 3)).
  eapply rtc_l;
    [apply (step_extract _ _ _ _ (bool * (byte * bool)) _ (false, (x00, false))),
       shape_pair, shape_pair; [apply shape_bool | apply shape_uint8_t | apply shape_bool]|].
  eapply rtc_l; [apply step_nextByte|]. apply rtc_refl.
Defined.

Lemma decoded_elements_fit_input_witness :
  N.of_nat (length (dest (decodeVectorLike convert_to_size_t bad_alloc_above_2_32
                            length_error_above_2_62
                            (T := byte * byte) [] (ScaleDecoderStream_of [x04; x2a; x2b; x2c]))))
    * 2 ≤ 4.
Proof.
  destruct (decoded_elements_fit_input convert_to_size_t bad_alloc_above_2_32
              length_error_above_2_62 bad_alloc_above_2_32
              (decodable_pair (F := byte) (S := byte)) 2 []
              (ScaleDecoderStream_of [x04; x2a; x2b; x2c])) as (Hv & _).
  - apply Forward_pair; apply Forward_uint8_t.
  - apply (element_pair byte byte _ _ 1 1 (λ e, e = NOT_ENOUGH_DATA));
      apply element_uint8_t.
  - apply in_bounds_of.
  - apply Hv. reflexivity.
Defined.

(** ** Where [TOO_MANY_ITEMS] comes from *)

Lemma nextByte_raises s e s' : nextByte s = (Raise e, s') → e = NOT_ENOUGH_DATA.
Proof.
  unfold nextByte. destruct (hasMore 1 s); [destruct (span_ s !! _)|];
    intros; by simplify_eq.
Qed.

Lemma nextBytes_raises k s e s' :
  nextBytes k s = (Raise e, s') → e = NOT_ENOUGH_DATA.
Proof. unfold nextBytes. destruct (hasMore k s); intros; by simplify_eq. Qed.

Lemma decodeCompactInteger_raises s e s' :
  decodeCompactInteger s = (Raise e, s') → e = NOT_ENOUGH_DATA.
Proof.
  unfold decodeCompactInteger, bind.
  destruct (nextByte s) as [[first|e1] s1] eqn:Hfirst;
    [|intros; simplify_eq; by apply (nextByte_raises s e s')].
  cbv zeta.
  destruct (N.land (Byte.to_N first) 3) as [|[[p|p|]|[p|p|]|]];
    try (unfold ret; intros; by simplify_eq);
    match goal with
    | |- context [nextBytes ?k ?s0] =>
      destruct (nextBytes k s0) as [[bs|e2] s2] eqn:Hrest;
        [unfold ret; intros; by simplify_eq
        |intros; simplify_eq; by apply (nextBytes_raises k s0 e s')]
    end.
Qed.

Lemma raises_CompactInteger :
  raises_only (λ e, e = NOT_ENOUGH_DATA) decodable_CompactInteger.
Proof.
  intros v s e. cbn. unfold assign.
  destruct (decodeCompactInteger s) as [[n|e1] s1] eqn:Hn; cbn; [done|].
  intros [= <-]. f_equal. by apply (decodeCompactInteger_raises s e1 s1).
Qed.

Section TooManyItems.

Context (convert_to : CompactInteger → N)
        (bad_alloc length_error reserve_bad_alloc : N → bool).

(** X10. With elements that do not raise [TOO_MANY_ITEMS] themselves, the
    decode of a vector, deque or list fails with [TOO_MANY_ITEMS] exactly
    when the length was read and reserving that many items ([resize], in
    the list overload [reserve]) throws [bad_alloc]; the decode of a map or
    of a [vector<bool>] never fails with it. *)
Theorem too_many_items_means_bad_alloc
    {T : Type} (dT : Decodable T)
    {K : Type} `{Countable K} {V : Type} (dK : Decodable K) (dV : Decodable V)
    (v : list T) (vb : list bool) (c : gmap K V) (s : ScaleDecoderStream) :
  raises_only (λ e, e ≠ TOO_MANY_ITEMS) dT →
  raises_only (λ e, e ≠ TOO_MANY_ITEMS) (@decodable_pair K V dK dV) →
  let size_ := extract (T := CompactInteger) 0 s in
  (status (decodeVectorLike convert_to bad_alloc length_error v s) = Some TOO_MANY_ITEMS ↔
     status size_ = None ∧ bad_alloc (convert_to (dest size_)) = true) ∧
  (status (extract_list convert_to reserve_bad_alloc v s) = Some TOO_MANY_ITEMS ↔
     status size_ = None ∧ reserve_bad_alloc (convert_to (dest size_)) = true) ∧
  status (extract_map convert_to c s) ≠ Some TOO_MANY_ITEMS ∧
  status (extract_vector_bool convert_to vb s) ≠ Some TOO_MANY_ITEMS.
Proof.
  intros HT Hp. cbv zeta.
  pose proof (raises_CompactInteger 0 s) as Hsize.
  unfold decodeVectorLike, extract_list, extract_map, extract_vector_bool.
  destruct (status (extract (T := CompactInteger) 0 s)) as [e0|] eqn:Hst.
  { specialize (Hsize e0 eq_refl). subst e0. cbn.
    repeat split; try discriminate; intros [? ?]; discriminate. }
  clear Hsize. split; [|split; [|split]].
  - destruct (bad_alloc _); [done|].
    destruct (length_error _); cbn;
      [split; [discriminate | intros [_ ?]; discriminate]|].
    destruct (status (extract_items _ _)) as [e|] eqn:Hi; cbn.
    + pose proof (extract_items_raises T dT _ HT _ _ _ Hi) as Hne.
      split; [intros; simplify_eq; done | intros [_ ?]; discriminate].
    + split; [discriminate | intros [_ ?]; discriminate].
  - destruct (reserve_bad_alloc _); [done|].
    match goal with
    | |- context [repeat_times ?n ?body ?l ?s1] =>
      destruct (status (repeat_times n body l s1)) as [e|] eqn:Hloop
    end; cbn.
    + eapply (repeat_times_raises _ (λ e, e ≠ TOO_MANY_ITEMS)) in Hloop;
        [|intros l s' e'; apply HT].
      split; [intros; simplify_eq; done | intros [_ ?]; discriminate].
    + split; [discriminate | intros [_ ?]; discriminate].
  - match goal with
    | |- context [repeat_times ?n ?body ?l ?s1] =>
      destruct (status (repeat_times n body l s1)) as [e|] eqn:Hloop
    end; cbn; [|discriminate].
    eapply (repeat_times_raises _ (λ e, e ≠ TOO_MANY_ITEMS)) in Hloop.
    + intros ?; simplify_eq; done.
    + intros [container p] s' e'. pose proof (Hp p s' e') as Hpe.
      destruct (status (extract p s')); cbn; [|discriminate].
      intros; simplify_eq. by apply Hpe.
  - match goal with
    | |- context [repeat_times ?n ?body ?l ?s1] =>
      destruct (status (repeat_times n body l s1)) as [e|] eqn:Hloop
    end; cbn; [|discriminate].
    eapply (repeat_times_raises _ (λ e, e = NOT_ENOUGH_DATA ∨ e = UNEXPECTED_VALUE))
      in Hloop.
    + intros ?; simplify_eq. by destruct Hloop.
    + intros [container el] s' e'. pose proof (raises_bool el s' e') as Hbe.
      destruct (status (extract el s')); cbn; [|discriminate].
      intros; simplify_eq. by apply Hbe.
Qed.

End TooManyItems.

Lemma too_many_items_means_bad_alloc_witness :
  let s := ScaleDecoderStream_of [x07; x01; x00; x00; x00; x01; x2a] in
  status (decodeVectorLike convert_to_size_t bad_alloc_above_2_32
            length_error_above_2_62 (T := byte) [] s)
    = Some TOO_MANY_ITEMS.
Proof.
  intros s.
  destruct (too_many_items_means_bad_alloc convert_to_size_t bad_alloc_above_2_32
              length_error_above_2_62 bad_alloc_above_2_32
              decodable_uint8_t decodable_uint8_t decodable_uint8_t
              [] [] (∅ : gmap byte byte) s) as ([_ Hv] & _).
  - intros v s' e He. destruct element_uint8_t as (_ & _ & Hr).
    rewrite (Hr v s' e He). discriminate.
  - intros p s' e He.
    destruct (element_pair byte byte decodable_uint8_t decodable_uint8_t 1 1
                (λ e, e = NOT_ENOUGH_DATA) element_uint8_t element_uint8_t)
      as (_ & _ & Hr).
    rewrite (Hr p s' e He). discriminate.
  - apply Hv. split; reflexivity.
Defined.

(** ** Decoding into a used destination *)

Lemma blind_pair F S (dF : Decodable F) (dS : Decodable S) :
  destination_blind dF → destination_blind dS →
  destination_blind (@decodable_pair F S dF dS).
Proof.
  intros HF HS p p' s. cbn. unfold extract_pair.
  destruct (HF p.1 p'.1 s) as (Hst & Hs & Hd). rewrite <- Hst, <- Hs.
  destruct (status (extract p.1 s)); cbn; [done|].
  destruct (HS p.2 p'.2 (stream (extract p.1 s))) as (Hst2 & Hs2 & Hd2).
  split; [done|]. split; [done|]. intros Hok. by rewrite (Hd eq_refl), (Hd2 Hok).
Qed.

Lemma blind_tuple Ts :
  ∀ ds : Decodables Ts,
    (∀ j sel, alternative_at Ts j ds = Some sel →
              destination_blind (chosen_decodable sel)) →
    destination_blind (decodable_tuple ds).
Proof.
  induction Ts as [|T Ts IH]; intros ds Hall v v' s.
  - cbn. by destruct v, v'.
  - destruct ds as [d ds], v as [x xs], v' as [x' xs'].
    pose proof (Hall O _ eq_refl x x' s) as (Hst & Hs & Hd).
    assert (destination_blind (decodable_tuple ds)) as Hrest.
    { apply IH. intros j sel Hj.
      apply (Hall (S j) (select (chosen sel) (chosen_decodable sel)
                                (λ x, holds_later (chosen_put sel x)))).
      cbn. by rewrite Hj. }
    cbn in Hst, Hs, Hd |- *. rewrite <- Hst, <- Hs.
    destruct (status (extract (Decodable := d) x s)); cbn; [done|].
    destruct (Hrest xs xs' (stream (extract (Decodable := d) x s)))
      as (Hst2 & Hs2 & Hd2).
    unfold decodable_tuple, extract_tuple in Hst2, Hs2, Hd2.
    cbn [extract] in Hst2, Hs2, Hd2. split; [done|]. split; [done|].
    intros Hok. by rewrite (Hd eq_refl), (Hd2 Hok).
Qed.

Lemma blind_tryDecodeAsOneOfVariant {V} Ts :
  ∀ (alts : Decodables Ts) I (put : variant Ts → V) v v' i s,
    status (tryDecodeAsOneOfVariant Ts I alts put v i s)
      = status (tryDecodeAsOneOfVariant Ts I alts put v' i s) ∧
    stream (tryDecodeAsOneOfVariant Ts I alts put v i s)
      = stream (tryDecodeAsOneOfVariant Ts I alts put v' i s) ∧
    (I ≤ i → i - I < N.of_nat (length Ts) →
       status (tryDecodeAsOneOfVariant Ts I alts put v i s) = None →
       dest (tryDecodeAsOneOfVariant Ts I alts put v i s)
         = dest (tryDecodeAsOneOfVariant Ts I alts put v' i s)).
Proof.
  induction Ts as [|T Ts IH]; intros alts I put v v' i s.
  - cbn. repeat split. lia.
  - cbn [tryDecodeAsOneOfVariant]. destruct (N.eqb_spec I i) as [->|Hne].
    + by destruct (status (extract _ _)).
    + destruct (IH alts.2 (I + 1) (λ w, put (holds_later w)) v v' i s)
        as (Hst & Hs & Hd).
      split; [done|]. split; [done|]. intros HI Hlt. apply Hd; [lia|].
      rewrite length_cons, Nat2N.inj_succ in Hlt. lia.
Qed.

Lemma blind_items T (d : Decodable T) :
  destination_blind d →
  ∀ l l' s, length l = length l' →
    status (extract_items l s) = status (extract_items l' s) ∧
    stream (extract_items l s) = stream (extract_items l' s) ∧
    (status (extract_items l s) = None →
       dest (extract_items l s) = dest (extract_items l' s)).
Proof.
  intros Hd. induction l as [|el rest IH]; intros [|el' rest'] s Hlen;
    try discriminate; cbn; [done|].
  destruct (Hd el el' s) as (Hst & Hs & Hv). rewrite <- Hst, <- Hs.
  destruct (status (extract el s)); cbn; [done|].
  destruct (IH rest' (stream (extract el s))) as (Hst2 & Hs2 & Hv2);
    [by injection Hlen|].
  split; [done|]. split; [done|]. intros Hok. by rewrite (Hv eq_refl), (Hv2 Hok).
Qed.

Section Blind.

Context (convert_to : CompactInteger → N)
        (bad_alloc length_error reserve_bad_alloc : N → bool).

(** X11. Decoding into a destination that already holds a value gives what
    decoding into any other destination gives: for every shape built from
    the stream's operators, the error, the stream afterwards and, when the
    decode returns, the decoded value do not depend on what the
    destination held before. *)
Theorem decode_ignores_old_destination (T : Type) (d : Decodable T) :
  Plain convert_to bad_alloc length_error reserve_bad_alloc T d →
  destination_blind d.
Proof.
  revert T d.
  apply (Plain_mutual convert_to bad_alloc length_error reserve_bad_alloc
           (λ T d, destination_blind d)
           (λ Ts ds, ∀ j sel, alternative_at Ts j ds = Some sel →
                              destination_blind (chosen_decodable sel))).
  - intros v v' s. apply assign_blind.
  - intros v v' s. apply assign_blind.
  - intros v v' s. apply assign_blind.
  - intros T d _ _ v v' s. cbn. unfold extract_optional.
    destruct from_bool; [apply assign_blind|]. case_status; by cbn.
  - intros T d _ _ v v' s. by cbn.
  - intros T d _ _ v v' s. by cbn.
  - intros F S dF dS _ HF _ HS. by apply blind_pair.
  - intros Ts ds _ Hds. by apply blind_tuple.
  - intros T Ts alts _ _ v v' s. cbn. unfold extract_variant.
    destruct (status (extract (T := byte) x00 s)); [done|].
    destruct (N.leb_spec (N.of_nat (length (T :: Ts)))
                (Byte.to_N (dest (extract (T := byte) x00 s)))) as [Hge|Hlt];
      [done|].
    destruct (blind_tryDecodeAsOneOfVariant (T :: Ts) alts 0 id v v'
                (Byte.to_N (dest (extract (T := byte) x00 s)))
                (stream (extract (T := byte) x00 s))) as (Hst & Hs & Hd).
    split; [done|]. split; [done|]. apply Hd; lia.
  - intros T d _ _ v v' s. cbn. unfold extract_vector, decodeVectorLike.
    case_status; by cbn.
  - intros T d _ _ v v' s. cbn. unfold extract_deque, decodeVectorLike.
    case_status; by cbn.
  - intros v v' s. cbn. unfold extract_vector_bool. case_status; by cbn.
  - intros T d _ _ v v' s. cbn. unfold extract_list. case_status; by cbn.
  - intros K ? ? V dK dV _ _ _ _ v v' s. cbn. unfold extract_map.
    case_status; by cbn.
  - intros T d size _ Hd a a' s. cbn. unfold extract_array.
    destruct (extract_elements_items T d size a s) as (Ha & Hast & Has).
    destruct (extract_elements_items T d size a' s) as (Ha' & Hast' & Has').
    destruct (blind_items T d Hd (vec_to_list a) (vec_to_list a') s)
      as (Hst & Hs & Hv); [by rewrite !length_vec_to_list|].
    rewrite Hast, Hast', Has, Has'. split; [done|]. split; [done|].
    intros Hok. apply vec_to_list_inj2. by rewrite Ha, Ha', (Hv Hok).
  - intros T d size _ _ c c' s. cbn. unfold extract_static_collection.
    case_status; by cbn.
  - auto.
  - intros j sel Hj. discriminate.
  - intros T Ts d ds _ Hd _ IH [|j] sel Hj; cbn in Hj.
    + injection Hj as <-. exact Hd.
    + destruct (alternative_at Ts j ds) as [sel'|] eqn:Hsel; [|discriminate].
      injection Hj as <-. cbn. by apply (IH j).
Qed.

End Blind.

Lemma decode_ignores_old_destination_witness :
  let d := @decodable_array _ (@decodable_pair byte (option bool) _ _) 2 in
  let s := ScaleDecoderStream_of [x2a; x01; x2b; x00] in
  dest (extract (Decodable := d) [# (x01, Some false); (x02, None)] s)
    = dest (extract (Decodable := d) [# (x00, None); (x00, None)] s).
Proof.
  intros d s.
  destruct (decode_ignores_old_destination convert_to_size_t bad_alloc_above_2_32
              length_error_above_2_62 bad_alloc_above_2_32 _ d)
              with (v := [# (x01, Some false); (x02, None)])
              (v' := [# (x00, None : option bool); (x00, None)]) (s := s)
    as (_ & _ & Hd).
  - apply plain_array, plain_pair; [apply plain_uint8_t|].
    apply plain_optional, plain_bool.
  - apply Hd. reflexivity.
Defined.
